(** * Verification of [funcs.py]: curve fitting helpers and significant-figure
    rounding.

    The Python module works on NumPy values, in IEEE binary64. The embedding
    reads the code in two arithmetics:

    - the fitting pipeline ([residuals], [fitting], [fitting_params_only],
      [chi2]) is written once over an arithmetic interface [Arith] and then
      read at two instances: binary64 ([float], what NumPy computes with)
      and the real numbers ([R], exact arithmetic);
    - the rounding functions ([round_sig_fig], [round_sig_fig_uncertainty])
      are written twice, operation by operation: in [Module binary64] over
      [float], with [np.round] as NumPy computes it (scale by the power of
      ten, [rint], scale back), and over the rationals [Q], the same
      operations without rounding error (exact arithmetic), where the
      decimal place of a result can be stated and proved for every input;
    - the array search ([find_nearest_index]) only compares numbers and is
      written over [Q].

    A theorem over [R] or [Q] is a statement about the code in exact
    arithmetic; where binary64 gives another result, a run of the binary64
    reading shows it.

    Python exceptions are an explicit [result] type. *)

From Stdlib Require Import Uint63 PrimFloat SpecFloat FloatOps FloatAxioms.
From Stdlib Require Import ZArith QArith Qround Qabs Qpower List Bool.
From Stdlib Require Import Reals Lra.
From Stdlib Require Import Lia Lqa.
From Stdlib Require String Ascii.
Import ListNotations.
Import String.StringSyntax.
Delimit Scope string_scope with string.
Close Scope Q_scope.
Close Scope R_scope.
Open Scope Z_scope.

(* Decimal float literals are read as Python reads them: the nearest
   binary64 number. *)
Set Warnings "-inexact-float".

(** ** Exceptions and the error monad *)

Inductive exn : Type :=
| ValueError      (* broadcast failure, [int(nan)] *)
| IndexError      (* sequence index out of range *)
| OverflowError   (* [int(inf)] *)
| LinAlgError     (* [numpy.linalg.inv] on a singular matrix *)
| SolverError.    (* anything [scipy.optimize.least_squares] raises *)

Inductive result (T : Type) : Type :=
| Ok (v : T)
| Raise (e : exn).
Arguments Ok {T} v.
Arguments Raise {T} e.

Definition bind {T U : Type} (c : result T) (k : T -> result U) : result U :=
  match c with
  | Ok v => k v
  | Raise e => Raise e
  end.

Declare Scope py_scope.
Delimit Scope py_scope with py.
Notation "x <- c ;; k" := (bind c (fun x => k))
  (at level 61, c at next level, right associativity) : py_scope.

(** ** The arithmetic interface *)

Class Arith (A : Type) : Type := {
  aadd : A -> A -> A;
  asub : A -> A -> A;
  amul : A -> A -> A;
  adiv : A -> A -> A;
  asqrt : A -> A;
  of_Z : Z -> A
}.

(** binary64, as NumPy's [float64] *)
Definition float_of_Z (z : Z) : float :=
  if (z <? 0)%Z
  then PrimFloat.opp (PrimFloat.of_uint63 (Uint63.of_Z (- z)))
  else PrimFloat.of_uint63 (Uint63.of_Z z).

#[export] Instance float_arith : Arith float := {
  aadd := PrimFloat.add;
  asub := PrimFloat.sub;
  amul := PrimFloat.mul;
  adiv := PrimFloat.div;
  asqrt := PrimFloat.sqrt;
  of_Z := float_of_Z
}.

(** Exact real arithmetic: no rounding, no overflow. Division by zero,
    which NumPy answers with [inf] or [nan], has no counterpart here: the
    theorems at this instance keep their divisors away from zero. *)
#[export] Instance R_arith : Arith R := {
  aadd := Rplus;
  asub := Rminus;
  amul := Rmult;
  adiv := Rdiv;
  asqrt := R_sqrt.sqrt;
  of_Z := IZR
}.

(** ** NumPy values and the fitting pipeline *)

Section Fitter.
Context {A : Type} `{Arith A}.
Local Open Scope py_scope.

(** A NumPy operand: a scalar ([np.float64], a Python number) or a 1-D
    [ndarray]. *)
Inductive npval : Type :=
| Scalar (a : A)
| Array (l : list A).

(** [x.size] *)
Definition size (v : npval) : Z :=
  match v with
  | Scalar _ => 1
  | Array l => Z.of_nat (length l)
  end.

(** [len(p)] *)
Definition len (p : list A) : Z := Z.of_nat (length p).

Fixpoint zip_with (op : A -> A -> A) (l1 l2 : list A) : list A :=
  match l1, l2 with
  | a :: l1', b :: l2' => op a b :: zip_with op l1' l2'
  | _, _ => []
  end.

(** Elementwise binary operation with NumPy broadcasting of 1-D operands:
    equal lengths pair up, a length-1 array is stretched, anything else is
    [ValueError: operands could not be broadcast together]. *)
Definition np_binop (op : A -> A -> A) (a b : npval) : result npval :=
  match a, b with
  | Scalar u, Scalar v => Ok (Scalar (op u v))
  | Scalar u, Array l => Ok (Array (map (op u) l))
  | Array l, Scalar v => Ok (Array (map (fun u => op u v) l))
  | Array l1, Array l2 =>
      if Nat.eqb (length l1) (length l2) then Ok (Array (zip_with op l1 l2))
      else match l1, l2 with
           | [u], _ => Ok (Array (map (op u) l2))
           | _, [v] => Ok (Array (map (fun u => op u v) l1))
           | _, _ => Raise ValueError
           end
  end.

Definition np_sub := np_binop asub.
Definition np_div := np_binop adiv.
Definition np_mul := np_binop amul.

(** A function applied to every entry. *)
Definition np_map (f : A -> A) (v : npval) : npval :=
  match v with
  | Scalar a => Scalar (f a)
  | Array l => Array (map f l)
  end.

(** [v**2], elementwise *)
Definition np_square (v : npval) : npval :=
  match v with
  | Scalar a => Scalar (amul a a)
  | Array l => Array (map (fun a => amul a a) l)
  end.

(** [np.sum(v)], accumulated left to right from zero. (NumPy adds long
    arrays pairwise: over the reals the order is immaterial, and of a
    binary64 sum the theorems use only whether it is [nan] or zero.) *)
Definition np_sum (v : npval) : A :=
  match v with
  | Scalar a => a
  | Array l => fold_left aadd l (of_Z 0)
  end.

(** A model function [func(p, x)]. *)
Definition model : Type := list A -> npval -> npval.

(** [residuals(p, func, x, y, s=1)]: [(y - func(p, x)) / s] *)
Definition residuals (p : list A) (func : model) (x y s : npval)
  : result npval :=
  d <- np_sub y (func p x) ;;
  np_div d s.

(** [residuals_data(observed, expected, s=1)]: [(observed - expected) / s] *)
Definition residuals_data (observed expected s : npval) : result npval :=
  d <- np_sub observed expected ;;
  np_div d s.

(** [chi2(observed, expected, s=1)] *)
Definition chi2 (observed expected s : npval) : result A :=
  r <- residuals_data observed expected s ;;
  Ok (np_sum (np_square r)).

(** Two-dimensional arrays ([r.jac], the Hessian, the covariance), with
    their shape. *)
Record matrix : Type := mk_matrix {
  nrows : nat;
  ncols : nat;
  entry : nat -> nat -> A
}.

(** [m.T] *)
Definition transpose (m : matrix) : matrix :=
  mk_matrix (ncols m) (nrows m) (fun i j => entry m j i).

(** [np.dot(a, b)] for matrices whose inner dimensions agree *)
Definition dot (a b : matrix) : matrix :=
  mk_matrix (nrows a) (ncols b)
    (fun i j =>
       fold_left aadd
         (map (fun k => amul (entry a i k) (entry b k j)) (seq 0 (ncols a)))
         (of_Z 0)).

(** [np.diag(m)] *)
Definition diag (m : matrix) : list A :=
  map (fun i => entry m i i) (seq 0 (Nat.min (nrows m) (ncols m))).

(** [m * beta] *)
Definition scale (m : matrix) (beta : A) : matrix :=
  mk_matrix (nrows m) (ncols m) (fun i j => amul (entry m i j) beta).

(** What [fitting] reads of SciPy's [OptimizeResult]: [r.x] and [r.jac]. *)
Record OptimizeResult : Type := mk_result {
  res_x : list A;
  res_jac : matrix
}.

(** The external collaborators: [scipy.optimize.least_squares], given the
    objective with its extra arguments already applied and the initial
    guess, and [numpy.linalg.inv]. *)
Variable least_squares :
  (list A -> result npval) -> list A -> result OptimizeResult.
Variable inv : matrix -> result matrix.

(** [fitting(p, x, y, func, s=1)] *)
Definition fitting (p : list A) (x y : npval) (func : model) (s : npval)
  : result (list A * A * list A) :=
  (* Fit the data and find the uncertainties *)
  r <- least_squares (fun q => residuals q func x y s) p ;;
  let p_fit := res_x r in
  let hessian := dot (transpose (res_jac r)) (res_jac r) in
  K_fit <- inv hessian ;;
  let unc_fit := map asqrt (diag K_fit) in
  (* rescale *)
  r1 <- residuals p_fit func x y (Scalar (of_Z 1)) ;;
  let beta :=
    asqrt (adiv (np_sum (np_square r1)) (of_Z (size x - len p_fit))) in
  let unc_fit := map (fun u => amul u beta) unc_fit in
  let K_fit := scale K_fit beta in
  (* find the chi2 score *)
  r2 <- residuals p_fit func x y (Scalar beta) ;;
  let chi := adiv (np_sum (np_square r2)) (of_Z (size x - len p_fit)) in
  Ok (p_fit, chi, unc_fit).

(** [fitting_params_only(p, x, y, func, s=1)] *)
Definition fitting_params_only
  (p : list A) (x y : npval) (func : model) (s : npval) : result (list A) :=
  r <- least_squares (fun q => residuals q func x y s) p ;;
  let p_fit := res_x r in
  Ok p_fit.

End Fitter.

Arguments npval A : clear implicits.
Arguments matrix A : clear implicits.
Arguments OptimizeResult A : clear implicits.
Arguments model A : clear implicits.

(** ** Decimal rounding in exact arithmetic

    The rounding functions over the rationals: every operation of the code
    ([np.log10] and [np.floor], the powers of ten, [np.round] with its
    scaling and [rint], the digits of [np.format_float_scientific]) without
    the rounding error binary64 adds to it. [Module binary64] below has the
    same functions as NumPy computes them. *)

Section Rounding.
Local Open Scope Q_scope.
Local Open Scope py_scope.

(** [10**e] *)
Definition pow10 (e : Z) : Q := (10 # 1) ^ e.

(** [np.rint]: the nearest integer, halfway cases to the even one. *)
Definition rint (x : Q) : Z :=
  let f := Qfloor x in
  match ((x - inject_Z f) ?= (1 # 2))%Q with
  | Lt => f
  | Gt => (f + 1)%Z
  | Eq => if Z.even f then f else (f + 1)%Z
  end.

(** [np.round(x, decimals)]: NumPy scales by the power of ten, rounds to
    the nearest integer and scales back; for negative [decimals] it divides
    first and multiplies afterwards. *)
Definition np_round (x : Q) (decimals : Z) : Q :=
  if (0 <=? decimals)%Z
  then inject_Z (rint (x * pow10 decimals)) / pow10 decimals
  else inject_Z (rint (x / pow10 (- decimals))) * pow10 (- decimals).

(** Number of decimal digits of a positive integer, minus one. *)
Fixpoint ilog10_fuel (fuel : nat) (z : Z) : Z :=
  match fuel with
  | O => 0%Z
  | S k => if (z <? 10)%Z then 0%Z else (1 + ilog10_fuel k (z / 10))%Z
  end.

Definition ilog10 (z : Z) : Z := ilog10_fuel (Z.to_nat (Z.log2 z)) z.

(** [np.floor(np.log10(x))] for [x > 0], exactly: the numerator is scaled
    by a power of ten above the denominator so that the quotient is at
    least one, and its digits are counted. *)
Definition floor_log10 (x : Q) : Z :=
  let d := Zpos (Qden x) in
  let s := (Z.log2 d + 1)%Z in
  (ilog10 (Qnum x * 10 ^ s / d) - s)%Z.

(** [int(np.floor(np.log10(x)))]: the logarithm of a negative number is
    [nan] and of zero is [-inf]; [int] refuses both. *)
Definition int_floor_log10 (x : Q) : result Z :=
  match x ?= 0 with
  | Gt => Ok (floor_log10 x)
  | Eq => Raise OverflowError
  | Lt => Raise ValueError
  end.

(** [np.floor(uncertainty / (10**np.floor(np.log10(uncertainty))))] *)
Definition leading_digit (uncertainty : Q) : Z :=
  Qfloor (uncertainty / pow10 (floor_log10 uncertainty))%Q.

(** The body the scalar branch and the loop of the array branch share,
    from the zero test on. For a negative uncertainty the logarithm is
    [nan], the comparison with [1.0] holds and [int] raises in the first
    branch: the exponent is bound first, which raises the same error. *)
Definition round_pair (value uncertainty : Q) : result (Q * Q) :=
  if Qeq_bool uncertainty 0 then Ok (value, uncertainty)
  else
    e <- int_floor_log10 uncertainty ;;
    if negb (Z.eqb (leading_digit uncertainty) 1) then
      let uncertainty_rnd := np_round uncertainty (- e) in
      e' <- int_floor_log10 uncertainty_rnd ;;
      let value_rnd := np_round value (- e') in
      Ok (value_rnd, uncertainty_rnd)
    else
      let uncertainty_rnd := np_round uncertainty (1 - e) in
      e' <- int_floor_log10 uncertainty_rnd ;;
      let value_rnd := np_round value (1 - e') in
      Ok (value_rnd, uncertainty_rnd).

(** [seq[i]] for [i >= 0] *)
Definition getitem (l : list Q) (i : nat) : result Q :=
  match nth_error l i with
  | Some q => Ok q
  | None => Raise IndexError
  end.

(** The loop [for i in range(len(value))], appending to the two output
    arrays. *)
Fixpoint round_loop (range : list nat) (value uncertainty : list Q)
  (value_out uncertainty_out : list Q) : result (list Q * list Q) :=
  match range with
  | [] => Ok (value_out, uncertainty_out)
  | i :: range' =>
      u <- getitem uncertainty i ;;
      v <- getitem value i ;;
      vu <- round_pair v u ;;
      round_loop range' value uncertainty
        (value_out ++ [fst vu]) (uncertainty_out ++ [snd vu])
  end.

(** The arguments of [round_sig_fig_uncertainty] by the run-time type the
    function inspects, the uncertainty being of the kind of the value:
    two numbers, two sequences (arrays or lists), or two objects of any
    other type (named here by a tag). *)
Inductive value_uncertainty : Type :=
| Scalars (value uncertainty : Q)
| Arrays (value uncertainty : list Q)
| Others (value uncertainty : nat).

(** [round_sig_fig_uncertainty(value, uncertainty)] *)
Definition round_sig_fig_uncertainty (args : value_uncertainty)
  : result value_uncertainty :=
  match args with
  | Arrays value uncertainty =>
      out <- round_loop (seq 0 (length value)) value uncertainty [] [] ;;
      Ok (Arrays (fst out) (snd out))
  | Scalars value uncertainty =>
      out <- round_pair value uncertainty ;;
      Ok (Scalars (fst out) (snd out))
  | Others value uncertainty => Ok (Others value uncertainty)
  end.

(** The exponent [np.format_float_scientific(x, precision)] prints: the
    digits are rounded to [precision] places after the leading one, and a
    mantissa that rounds up to ten moves the exponent up by one. Zero
    prints as [0.e+00]. *)
Definition sci_exponent (x : Q) (precision : Z) : Z :=
  if Qeq_bool x 0 then 0%Z
  else
    let e := floor_log10 (Qabs x) in
    let digits := rint (Qabs x / pow10 e * pow10 precision) in
    if (10 ^ (precision + 1) <=? digits)%Z then (e + 1)%Z else e.

(** [int(np.format_float_scientific(x, n).split('e')[1])]; a negative
    precision is refused with [ValueError]. *)
Definition format_exponent (x : Q) (n : Z) : result Z :=
  if (n <? 0)%Z then Raise ValueError else Ok (sci_exponent x n).

(** One number rounded as both branches of [round_sig_fig] do. *)
Definition round_one (value : Q) (n : Z) : result Q :=
  (* Turn the value into a string in scientific notation, keep the
     exponent *)
  expo <- format_exponent value n ;;
  (* Round the value to this number of decimal places *)
  Ok (np_round value (- (expo - n + 1))).

Fixpoint map_result {T U : Type} (f : T -> result U) (l : list T)
  : result (list U) :=
  match l with
  | [] => Ok []
  | a :: l' => b <- f a ;; bs <- map_result f l' ;; Ok (b :: bs)
  end.

(** An [ndarray] of rank one or more: a 1-D array of numbers, or the list
    of its sub-arrays along the leading axis. *)
#[warnings="-register-all"] Inductive ndarray : Type :=
| Nd1 (l : list Q)
| NdN (subs : list ndarray).

(** The array branch of [round_sig_fig]: a 1-D array is rounded entry by
    entry into [out_local]; otherwise [out[i] = round_sig_fig(value[i], n)]
    along the leading axis. *)
Fixpoint round_sig_fig_array (value : ndarray) (n : Z) : result ndarray :=
  match value with
  | Nd1 l =>
      out_local <- map_result (fun v => round_one v n) l ;;
      Ok (Nd1 out_local)
  | NdN subs =>
      out <- (fix along (l : list ndarray) : result (list ndarray) :=
                match l with
                | [] => Ok []
                | a :: l' =>
                    b <- round_sig_fig_array a n ;;
                    bs <- along l' ;;
                    Ok (b :: bs)
                end) subs ;;
      Ok (NdN out)
  end.


(** What [round_sig_fig] takes and returns: a float (a Python [float] or
    an [np.float64], by the number it stands for), an array of floats, an
    object of another type (by a tag), or [None]. *)
Inductive pyvalue : Type :=
| PyNum (q : Q)
| PyArray (a : ndarray)
| PyOther (tag : nat)
| PyNone.

(** [round_sig_fig(value, n)]; for a value that is neither number nor
    array the function ends without [return]. *)
Definition round_sig_fig (value : pyvalue) (n : Z) : result pyvalue :=
  match value with
  | PyNum v =>
      out <- round_one v n ;;
      Ok (PyNum out)
  | PyArray a =>
      out <- round_sig_fig_array a n ;;
      Ok (PyArray out)
  | PyOther _ | PyNone => Ok PyNone
  end.

(** ** Array search *)

(** [a < b] on numbers *)
Definition Qlt_bool (a b : Q) : bool := negb (Qle_bool b a).

(** [np.searchsorted(array, value, side="left")]: NumPy's binary search
    for the first index whose element is not below the key. *)
Fixpoint searchsorted_loop (fuel : nat) (array : list Q) (key : Q)
  (min_idx max_idx : nat) : nat :=
  match fuel with
  | O => min_idx
  | S fuel' =>
      if (min_idx <? max_idx)%nat then
        let mid := (min_idx + (max_idx - min_idx) / 2)%nat in
        if Qlt_bool (nth mid array 0) key
        then searchsorted_loop fuel' array key (mid + 1)%nat max_idx
        else searchsorted_loop fuel' array key min_idx mid
      else min_idx
  end.

Definition searchsorted_left (array : list Q) (key : Q) : nat :=
  searchsorted_loop (length array) array key 0%nat (length array).

(** [find_nearest_index(value, array)] *)
Definition find_nearest_index (value : Q) (array : list Q) : nat :=
  let index := searchsorted_left array value in
  index.

(** The index the search is documented to return: that of an entry nearest
    to the value, the leftmost one among the nearest. *)
Definition nearest_index (array : list Q) (value : Q) (i : nat) : Prop :=
  (i < length array)%nat /\
  forall j, (j < length array)%nat ->
    Qabs (nth i array 0 - value) <= Qabs (nth j array 0 - value) /\
    ((j < i)%nat ->
     Qabs (nth i array 0 - value) < Qabs (nth j array 0 - value)).

(** Sorted in ascending order, as [np.searchsorted] expects. *)
Definition ascending (array : list Q) : Prop :=
  forall i j, (i <= j)%nat -> (j < length array)%nat ->
    nth i array 0 <= nth j array 0.

End Rounding.

(** ** Decimal rounding in binary64

    The scalar branches of the rounding functions as NumPy computes them on
    floats. *)

Module binary64.
Section Rounding.
Local Open Scope float_scope.
Local Open Scope py_scope.

(** The external collaborators: [np.log10] and the power behind
    [10**e], both the C library's. *)
Variable log10 : float -> float.
Variable pow : float -> float -> float.

(** The number a binary64 value stands for; [None] for [nan] and the
    infinities. *)
Definition float_value (x : float) : option Q :=
  match Prim2SF x with
  | S754_zero _ => Some 0%Q
  | S754_finite s m e =>
      Some ((if s then - inject_Z (Zpos m) else inject_Z (Zpos m))
            * (2 # 1) ^ e)%Q
  | S754_infinity _ | S754_nan => None
  end.

(** [np.rint]: below [2**52] adding and subtracting [2**52] rounds to the
    nearest integer, halfway cases to the even one; from [2**52] on every
    binary64 number is an integer. The sign is kept, also of zero. *)
Definition rint (x : float) : float :=
  let a := abs x in
  if a <? 0x1p52 then
    let r := (a + 0x1p52) - 0x1p52 in
    if get_sign x then - r else r
  else x.

(** [np.floor] *)
Definition np_floor (x : float) : float :=
  let r := rint x in
  if x <? r then r - 1 else r.

(** NumPy's [power_of_ten(n)] for [n >= 0]: a table up to [1e8], then
    [1e9] multiplied by ten [n - 9] times. *)
Definition power_of_ten (n : Z) : float :=
  if (n <? 9)%Z then float_of_Z (10 ^ n)
  else Nat.iter (Z.to_nat (n - 9)) (fun ret => ret * 10) 1e9.

(** [np.round(x, decimals)] on a float. *)
Definition np_round (x : float) (decimals : Z) : float :=
  if (0 <=? decimals)%Z
  then rint (x * power_of_ten decimals) / power_of_ten decimals
  else rint (x / power_of_ten (- decimals)) * power_of_ten (- decimals).

(** [int(x)]: the integer part; [nan] and the infinities are refused. *)
Definition py_int (x : float) : result Z :=
  match Prim2SF x with
  | S754_nan => Raise ValueError
  | S754_infinity _ => Raise OverflowError
  | S754_zero _ => Ok 0%Z
  | S754_finite s m e =>
      let z := Z.shiftl (Zpos m) e in
      Ok (if s then (- z)%Z else z)
  end.

(** The scalar branch of [round_sig_fig_uncertainty] (the loop of the
    array branch has the same body). *)
Definition round_sig_fig_uncertainty (value uncertainty : float)
  : result (float * float) :=
  if uncertainty =? 0 then Ok (value, uncertainty)
  else if negb (np_floor
                  (uncertainty / pow 10 (np_floor (log10 uncertainty)))
                =? 1)
  then
    d <- py_int (- np_floor (log10 uncertainty)) ;;
    let uncertainty_out := np_round uncertainty d in
    d' <- py_int (- np_floor (log10 uncertainty_out)) ;;
    let value_out := np_round value d' in
    Ok (value_out, uncertainty_out)
  else
    d <- py_int (1 - np_floor (log10 uncertainty)) ;;
    let uncertainty_out := np_round uncertainty d in
    d' <- py_int (1 - np_floor (log10 uncertainty_out)) ;;
    let value_out := np_round value d' in
    Ok (value_out, uncertainty_out).

(** The gaps [np.format_float_scientific] works with: half the distance
    from a finite number to the next binary64 number below and above it. The
    gap below a power of two is half as wide. *)
Definition margins (x : float) : Q * Q :=
  match Prim2SF x with
  | S754_finite _ m e =>
      let half_ulp := ((2 # 1) ^ e / 2)%Q in
      if (Zpos m =? 2 ^ 52)%Z && (-1074 <? e)%Z
      then ((half_ulp / 2)%Q, half_ulp)
      else (half_ulp, half_ulp)
  | _ => (0%Q, 0%Q)
  end.

Definition mantissa_even (x : float) : bool :=
  match Prim2SF x with
  | S754_finite _ m _ => Z.even (Zpos m)
  | _ => true
  end.

(** The digits of [np.format_float_scientific] (Dragon4, [unique=True])
    from the digit in front of [r] on: digits are taken while the number is
    not yet told apart from its neighbours ([low], [high]) and at most
    [cutoff] more are wanted; the last one is rounded [up] by the gaps, or
    by the remainder against one half (a tie to the even digit). The
    result says whether every digit was a nine and the last one went up:
    the string then reads [1.e+XX] with the exponent one higher. *)
Fixpoint dragon4_carries (cutoff : nat) (r low high : Q)
  (even nines : bool) : bool :=
  let digit := Qfloor r in
  let rest := (r - inject_Z digit)%Q in
  let nines := nines && (digit =? 9)%Z in
  let low_end :=
    if even then Qle_bool rest low else Qlt_bool rest low in
  let high_end :=
    if even then Qle_bool 1 (rest + high) else Qlt_bool 1 (rest + high) in
  let up :=
    if Bool.eqb low_end high_end then
      match (2 * rest ?= 1)%Q with
      | Lt => false
      | Eq => Z.odd digit
      | Gt => true
      end
    else negb low_end in
  match cutoff with
  | O => nines && up
  | S cutoff' =>
      if low_end || high_end then nines && up
      else dragon4_carries cutoff' (10 * rest)%Q (10 * low)%Q (10 * high)%Q
             even nines
  end.

(** The exponent [np.format_float_scientific(x, precision)] prints for a
    finite [x]; zero prints as [0.e+00]. *)
Definition sci_exponent (x : float) (v : Q) (precision : Z) : Z :=
  if Qeq_bool v 0 then 0%Z
  else
    let e := floor_log10 (Qabs v) in
    let scale := pow10 (- e) in
    if dragon4_carries (Z.to_nat precision) (Qabs v * scale)%Q
         (fst (margins x) * scale)%Q (snd (margins x) * scale)%Q
         (mantissa_even x) true
    then (e + 1)%Z else e.

(** [int(np.format_float_scientific(x, n).split('e')[1])]: a negative
    precision is refused with [ValueError]; [nan] and [inf] print without
    an exponent and the index [1] is out of range. *)
Definition format_exponent (x : float) (n : Z) : result Z :=
  if (n <? 0)%Z then Raise ValueError
  else match float_value x with
       | Some v => Ok (sci_exponent x v n)
       | None => Raise IndexError
       end.

(** The float branch of [round_sig_fig]. *)
Definition round_sig_fig (value : float) (n : Z) : result float :=
  (* Turn the value into a string in scientific notation, keep the
     exponent *)
  expo <- format_exponent value n ;;
  (* Round the value to this number of decimal places *)
  Ok (np_round value (- (expo - n + 1))).

End Rounding.
End binary64.

(** ** Concrete runs used to exercise the theorems *)

Section Runs.
Context {A : Type} `{Arith A}.

(** The straight line through the origin, [func(p, x) = p[0] * x]. *)
Definition line (p : list A) (x : npval A) : npval A :=
  match np_mul (Scalar (nth 0 p (of_Z 0))) x with
  | Ok v => v
  | Raise _ => x
  end.

(** A solver run that ends at its starting point [p] and reports the
    Jacobian [J] there. *)
Definition converged_at (J : matrix A)
  (f : list A -> result (npval A)) (p : list A)
  : result (OptimizeResult A) :=
  Ok (mk_result p J).

(** The one-column Jacobian of the residuals of [line] at unit sigma:
    [d((y - p*x)/1)/dp = -x]. *)
Definition line_jac (x : list A) : matrix A :=
  mk_matrix (length x) 1
    (fun i _ => asub (of_Z 0) (nth i x (of_Z 0))).

(** The inverse of a 1-by-1 matrix whose entry is not zero. *)
Definition inv_1x1 (m : matrix A) : result (matrix A) :=
  Ok (mk_matrix 1 1 (fun _ _ => adiv (of_Z 1) (entry m 0 0))).

End Runs.




(** Shapes of binary64 values met when the degrees of freedom are zero. *)
Definition nan_or_pzero (f : float) : Prop :=
  Prim2SF f = S754_nan \/ Prim2SF f = S754_zero false.

Definition nan_or_pinf (f : float) : Prop :=
  Prim2SF f = S754_nan \/ Prim2SF f = S754_infinity false.

(** A binary64 zero of either sign, and [nan]. *)
Definition float_zero (f : float) : Prop := exists s, Prim2SF f = S754_zero s.

Definition float_nan (f : float) : Prop := Prim2SF f = S754_nan.

(** ** The model functions of [maths_functions.py] *)

(** What the model functions need beyond [Arith]: unary minus, [np.exp],
    [np.sin] and [np.cos]. *)
Class Elementary (A : Type) : Type := {
  aneg : A -> A;
  aexp : A -> A;
  asine : A -> A;
  acosine : A -> A
}.

#[export] Instance R_elementary : Elementary R := {
  aneg := Ropp;
  aexp := exp;
  asine := sin;
  acosine := cos
}.

(** Every entry satisfies [P]. *)
Definition np_all {A : Type} (P : A -> Prop) (v : npval A) : Prop :=
  match v with
  | Scalar a => P a
  | Array l => Forall P l
  end.

(** The model functions, with [p[i]] failing on a missing index. The
    arithmetic is that of the interface: NumPy's on an array of parameters
    (overflow and division by zero give [inf] and [nan]) or exact. On a
    list of Python floats [**] can raise [OverflowError] and [/]
    [ZeroDivisionError]; these definitions have no such path, and the
    theorems about them are stated over the reals with the divisors away
    from zero. *)
Module maths_functions.
Section Models.
Context {A : Type} `{Arith A} `{Elementary A}.
Local Open Scope py_scope.

Definition np_add := np_binop aadd.

(** [p[i]] on the parameters, a list or 1-D array *)
Definition item (p : list A) (i : nat) : result A :=
  match nth_error p i with
  | Some a => Ok a
  | None => Raise IndexError
  end.

(** [gauss(p, x)]:
    [p[0] * np.exp(-(x - p[1])**2 / (2 * p[2]**2)) + p[3]] *)
Definition gauss (p : list A) (x : npval A) : result (npval A) :=
  p0 <- item p 0 ;;
  p1 <- item p 1 ;;
  d <- np_sub x (Scalar p1) ;;
  let minus_d2 := np_map aneg (np_square d) in
  p2 <- item p 2 ;;
  q <- np_div minus_d2 (Scalar (amul (of_Z 2) (amul p2 p2))) ;;
  e <- np_mul (Scalar p0) (np_map aexp q) ;;
  p3 <- item p 3 ;;
  np_add e (Scalar p3).

(** [lorentz(p, x)]:
    [p[0] * p[2]**2 / ((x - p[1])**2 + p[2]**2) + p[3]] *)
Definition lorentz (p : list A) (x : npval A) : result (npval A) :=
  p0 <- item p 0 ;;
  p2 <- item p 2 ;;
  let num := amul p0 (amul p2 p2) in
  p1 <- item p 1 ;;
  d <- np_sub x (Scalar p1) ;;
  p2' <- item p 2 ;;
  den <- np_add (np_square d) (Scalar (amul p2' p2')) ;;
  q <- np_div (Scalar num) den ;;
  p3 <- item p 3 ;;
  np_add q (Scalar p3).

(** The phase [a*x + b] with [a = p[i]], [b = p[j]] *)
Definition phase (p : list A) (i j : nat) (x : npval A)
  : result (npval A) :=
  a <- item p i ;;
  ax <- np_mul (Scalar a) x ;;
  b <- item p j ;;
  np_add ax (Scalar b).

(** [sin(p, x)]: [p[0]*np.sin(p[1]*x+p[2]) + p[3]] *)
Definition sin (p : list A) (x : npval A) : result (npval A) :=
  p0 <- item p 0 ;;
  ph <- phase p 1 2 x ;;
  m <- np_mul (Scalar p0) (np_map asine ph) ;;
  p3 <- item p 3 ;;
  np_add m (Scalar p3).

(** [cos_superpos(p, x)]:
    [p[0]*(np.cos(p[1]*x+p[2]) + np.cos(p[3]*x+p[4])) + p[5]] *)
Definition cos_superpos (p : list A) (x : npval A) : result (npval A) :=
  p0 <- item p 0 ;;
  ph1 <- phase p 1 2 x ;;
  ph2 <- phase p 3 4 x ;;
  c <- np_add (np_map acosine ph1) (np_map acosine ph2) ;;
  m <- np_mul (Scalar p0) c ;;
  p5 <- item p 5 ;;
  np_add m (Scalar p5).

(** [cos_prod(p, x)]:
    [p[0]*np.cos(p[1]*x+p[2]) * np.cos(p[3]*x+p[4]) + p[5]] *)
Definition cos_prod (p : list A) (x : npval A) : result (npval A) :=
  p0 <- item p 0 ;;
  ph1 <- phase p 1 2 x ;;
  m1 <- np_mul (Scalar p0) (np_map acosine ph1) ;;
  ph2 <- phase p 3 4 x ;;
  m2 <- np_mul m1 (np_map acosine ph2) ;;
  p5 <- item p 5 ;;
  np_add m2 (Scalar p5).

End Models.
End maths_functions.

(** ** [search_store] *)

Section Store.
(** The arrays an archive holds, with their shapes. *)
Variable payload : Type.
Variable shape : payload -> list nat.

(** An [NpzFile]: the named arrays in the order of the archive. *)
Definition npz : Type := list (String.string * payload).

(** [string in i]: the string occurs in the name as a contiguous part. *)
Fixpoint contains (string i : String.string) : bool :=
  String.prefix string i ||
  match i with
  | String.EmptyString => false
  | String.String _ i' => contains string i'
  end.

(** [file[i]]: the archive opens the last member of that name. *)
Fixpoint getfile (file : npz) (i : String.string) : option payload :=
  match file with
  | [] => None
  | (name, a) :: file' =>
      match getfile file' i with
      | Some b => Some b
      | None => if String.eqb name i then Some a else None
      end
  end.

(** The loop [for i in file], over the names the archive lists. A listed
    name is always found (see [listed_name_found]). *)
Fixpoint store_loop (file : npz) (names : list String.string)
  (string : String.string) (lst : list payload) : list payload :=
  match names with
  | [] => lst
  | i :: names' =>
      if contains string i then
        match getfile file i with
        | Some a => store_loop file names' string (lst ++ [a])
        | None => store_loop file names' string lst
        end
      else store_loop file names' string lst
  end.

Fixpoint shape_eqb (s t : list nat) : bool :=
  match s, t with
  | [], [] => true
  | a :: s', b :: t' => Nat.eqb a b && shape_eqb s' t'
  | _, _ => false
  end.

(** [np.asarray([lst])[0]]: arrays of one shape are stacked along a new
    leading axis, the stack being given by its sub-arrays; no array gives the
    empty array; arrays of different shapes are refused ([ValueError:
    inhomogeneous shape], NumPy 1.24 and later). *)
Definition asarray_first (lst : list payload) : result (list payload) :=
  match lst with
  | [] => Ok []
  | a :: rest =>
      if forallb (fun b => shape_eqb (shape b) (shape a)) rest
      then Ok lst
      else Raise ValueError
  end.

(** [search_store(file, string)] *)
Definition search_store (file : npz) (string : String.string)
  : result (list payload) :=
  let lst := store_loop file (map fst file) string [] in
  asarray_first lst.

End Store.

(** * Theorems *)

(** ** The fitter, for any arithmetic *)

Section FitterFacts.
Context {A : Type} `{Arith A}.
Variable least_squares :
  (list A -> result (npval A)) -> list A -> result (OptimizeResult A).
Variable inv : matrix A -> result (matrix A).

Lemma np_div_scalar (d : npval A) (b : A) :
  np_div d (Scalar b) = Ok (np_map (fun a => adiv a b) d).
Proof. destruct d; reflexivity. Qed.

(** With a scalar sigma the residuals fail only if the subtraction does. *)
Lemma residuals_scalar (p : list A) (func : model A) (x y : npval A) (b : A) :
  residuals p func x y (Scalar b) =
  bind (np_sub y (func p x)) (fun d => Ok (np_map (fun a => adiv a b) d)).
Proof.
  unfold residuals. destruct (np_sub y (func p x)); simpl; auto.
  apply np_div_scalar.
Qed.

(** [fitting] unfolded along a run in which the solver, the inversion and
    the subtraction of the model from the data succeed. *)
Lemma fitting_run (p : list A) (x y : npval A) (func : model A) (s : npval A)
  (r : OptimizeResult A) (K : matrix A) (d : npval A) :
  least_squares (fun q => residuals q func x y s) p = Ok r ->
  inv (dot (transpose (res_jac r)) (res_jac r)) = Ok K ->
  np_sub y (func (res_x r) x) = Ok d ->
  let dof := of_Z (size x - len (res_x r)) in
  let beta :=
    asqrt (adiv (np_sum (np_square (np_map (fun a => adiv a (of_Z 1)) d)))
             dof) in
  fitting least_squares inv p x y func s =
  Ok (res_x r,
      adiv (np_sum (np_square (np_map (fun a => adiv a beta) d))) dof,
      map (fun u => amul u beta) (map asqrt (diag K))).
Proof.
  intros Hls Hinv Hsub dof beta. unfold fitting.
  rewrite Hls. simpl. rewrite Hinv. simpl.
  rewrite residuals_scalar, Hsub. simpl.
  rewrite residuals_scalar, Hsub. simpl. reflexivity.
Qed.

(** The three ways [fitting] can fail are the failures of its
    collaborators. *)
Lemma fitting_raises (p : list A) (x y : npval A) (func : model A)
  (s : npval A) (e : exn) :
  fitting least_squares inv p x y func s = Raise e ->
  least_squares (fun q => residuals q func x y s) p = Raise e \/
  exists r,
    least_squares (fun q => residuals q func x y s) p = Ok r /\
    (inv (dot (transpose (res_jac r)) (res_jac r)) = Raise e \/
     np_sub y (func (res_x r) x) = Raise e).
Proof.
  unfold fitting. intros Hfit.
  destruct (least_squares _ p) as [r|e0] eqn:Hls; simpl in Hfit.
  2:{ injection Hfit as ->. now left. }
  right. exists r. split; [reflexivity|].
  destruct (inv _) as [K|e1]; simpl in Hfit.
  2:{ injection Hfit as ->. now left. }
  rewrite residuals_scalar in Hfit.
  destruct (np_sub y (func (res_x r) x)) as [d|e2] eqn:Hsub; simpl in Hfit.
  2:{ injection Hfit as ->. now right. }
  rewrite residuals_scalar, Hsub in Hfit. simpl in Hfit. discriminate.
Qed.

(** Swapping the operands of a broadcast operation swaps the operands of
    the scalar operation. *)
Lemma np_binop_swap (op : A -> A -> A) (a b : npval A) :
  np_binop op b a = np_binop (fun u v => op v u) a b.
Proof.
  destruct a as [u|l1], b as [v|l2]; simpl; try reflexivity.
  rewrite Nat.eqb_sym.
  destruct (Nat.eqb (length l1) (length l2)) eqn:E.
  - f_equal. f_equal. clear E. revert l1.
    induction l2 as [|b l2 IH]; intros [|a l1]; simpl; try reflexivity.
    now rewrite IH.
  - destruct l1 as [|a [|a' l1]], l2 as [|b [|b' l2]];
      simpl in *; try reflexivity; discriminate.
Qed.

Lemma zip_with_post (op1 op2 : A -> A -> A) (g : A -> A) :
  (forall u v, op2 u v = g (op1 u v)) ->
  forall l1 l2, zip_with op2 l1 l2 = map g (zip_with op1 l1 l2).
Proof.
  intros Hg. induction l1 as [|a l1 IH]; intros [|b l2]; simpl; auto.
  now rewrite Hg, IH.
Qed.

(** A function applied after the scalar operation is applied after the
    broadcast one. *)
Lemma np_binop_post (op1 op2 : A -> A -> A) (g : A -> A) (a b : npval A) :
  (forall u v, op2 u v = g (op1 u v)) ->
  np_binop op2 a b = bind (np_binop op1 a b) (fun r => Ok (np_map g r)).
Proof.
  intros Hg.
  assert (Hl : forall u l, map (op2 u) l = map g (map (op1 u) l)).
  { intros. rewrite map_map. apply map_ext. auto. }
  assert (Hr : forall v l,
             map (fun u => op2 u v) l = map g (map (fun u => op1 u v) l)).
  { intros. rewrite map_map. apply map_ext. auto. }
  destruct a as [u|l1], b as [v|l2]; simpl;
    rewrite ?Hg, ?Hl, ?Hr; try reflexivity.
  destruct (Nat.eqb (length l1) (length l2)); simpl.
  - now rewrite (zip_with_post op1 op2 g Hg).
  - destruct l1 as [|a [|a' l1]], l2 as [|b [|b' l2]]; simpl;
      rewrite ?Hg, ?Hl, ?Hr; reflexivity.
Qed.

Lemma zip_with_pre (op : A -> A -> A) (g : A -> A) :
  (forall u v, op (g u) v = g (op u v)) ->
  forall l1 l2, zip_with op (map g l1) l2 = map g (zip_with op l1 l2).
Proof.
  intros Hg. induction l1 as [|a l1 IH]; intros [|b l2]; simpl; auto.
  now rewrite Hg, IH.
Qed.

(** A function that commutes with the scalar operation in its first
    operand commutes with the broadcast one. *)
Lemma np_binop_pre (op : A -> A -> A) (g : A -> A) (a b : npval A) :
  (forall u v, op (g u) v = g (op u v)) ->
  np_binop op (np_map g a) b =
  bind (np_binop op a b) (fun r => Ok (np_map g r)).
Proof.
  intros Hg.
  assert (Hl : forall u l, map (op (g u)) l = map g (map (op u) l)).
  { intros. rewrite map_map. apply map_ext. auto. }
  assert (Hr : forall v l,
             map (fun u => op u v) (map g l) =
             map g (map (fun u => op u v) l)).
  { intros. rewrite !map_map. apply map_ext. auto. }
  destruct a as [u|l1], b as [v|l2]; simpl;
    rewrite ?Hg, ?Hl, ?Hr; try reflexivity.
  rewrite length_map.
  destruct (Nat.eqb (length l1) (length l2)); simpl.
  - now rewrite (zip_with_pre op g Hg).
  - destruct l1 as [|a [|a' l1]], l2 as [|b [|b' l2]]; simpl;
      rewrite ?Hg, ?Hl, ?Hr; reflexivity.
Qed.

(** C10: [fitting_params_only] performs the solver step alone and hands out
    its solution: whenever [fitting] returns a triple, its first component
    is the vector [fitting_params_only] returns on the same input, and
    whenever the solver returns, [fitting_params_only] returns its [x]
    whatever the uncertainty estimation of [fitting] does. *)
Theorem fitting_params_only_agrees (p : list A) (x y : npval A)
  (func : model A) (s : npval A) :
  (forall p_fit chi unc_fit,
      fitting least_squares inv p x y func s = Ok (p_fit, chi, unc_fit) ->
      fitting_params_only least_squares p x y func s = Ok p_fit) /\
  (forall r,
      least_squares (fun q => residuals q func x y s) p = Ok r ->
      fitting_params_only least_squares p x y func s = Ok (res_x r)) /\
  (forall e,
      least_squares (fun q => residuals q func x y s) p = Raise e ->
      fitting_params_only least_squares p x y func s = Raise e /\
      fitting least_squares inv p x y func s = Raise e).
Proof.
  unfold fitting, fitting_params_only.
  destruct (least_squares _ p) as [r|e0]; simpl.
  - split; [|split]; [| intros r' [= <-]; reflexivity | discriminate].
    intros p_fit chi unc_fit.
    destruct (inv _); simpl; [|discriminate].
    destruct (residuals (res_x r) func x y (Scalar (of_Z 1))); simpl;
      [|discriminate].
    destruct (residuals (res_x r) func x y _); simpl; [|discriminate].
    intros [= <- _ _]. reflexivity.
  - split; [|split]; [discriminate | discriminate |].
    intros e [= <-]. split; reflexivity.
Qed.

End FitterFacts.

(** ** The fitter in exact arithmetic *)

Section ExactFitter.
Local Open Scope R_scope.
Variable least_squares :
  (list R -> result (npval R)) -> list R -> result (OptimizeResult R).
Variable inv : matrix R -> result (matrix R).

Lemma fold_left_Rplus_acc (l : list R) (acc : R) :
  fold_left Rplus l acc = acc + fold_left Rplus l 0.
Proof.
  revert acc. induction l as [|a l IH]; intros acc; simpl.
  - ring.
  - rewrite (IH (acc + a)), (IH (0 + a)). ring.
Qed.

Lemma sum_squares_nonneg (d : npval R) : 0 <= np_sum (np_square d).
Proof.
  destruct d as [a|l]; simpl.
  - apply Rle_0_sqr.
  - induction l as [|a l IH]; simpl.
    + Lra.lra.
    + rewrite fold_left_Rplus_acc. pose proof (Rle_0_sqr a) as Ha.
      unfold Rsqr in Ha. Lra.lra.
Qed.

(** Dividing every residual by [b] divides the sum of squares by [b*b]. *)
Lemma sum_squares_div (d : npval R) (b : R) :
  b <> 0 ->
  np_sum (np_square (np_map (fun a => a / b) d)) =
  np_sum (np_square d) / (b * b).
Proof.
  intros Hb. destruct d as [a|l]; simpl.
  - field. exact Hb.
  - induction l as [|a l IH]; simpl.
    + field. exact Hb.
    + rewrite fold_left_Rplus_acc, IH.
      rewrite (fold_left_Rplus_acc _ (0 + a * a)). field. exact Hb.
Qed.

Lemma sum_squares_div_1 (d : npval R) :
  np_sum (np_square (np_map (fun a => a / 1) d)) = np_sum (np_square d).
Proof. rewrite sum_squares_div by Lra.lra. field. Qed.

Lemma sum_squares_opp (d : npval R) :
  np_sum (np_square (np_map Ropp d)) = np_sum (np_square d).
Proof.
  destruct d as [a|l]; simpl.
  - ring.
  - f_equal. rewrite map_map. apply map_ext. intros a. ring.
Qed.

(** The identity behind the reported statistic: with
    [beta = sqrt(S / n)] for a positive sum of squares [S] and a positive
    number [n] of degrees of freedom, the sum of the squares of the
    residuals divided by [beta], over [n], is one. *)
Lemma rescaled_chi_is_one (d : npval R) (n : R) :
  0 < n ->
  np_sum (np_square d) <> 0 ->
  let beta := sqrt (np_sum (np_square d) / n) in
  np_sum (np_square (np_map (fun a => a / beta) d)) / n = 1.
Proof.
  intros Hn HS beta.
  pose proof (sum_squares_nonneg d) as H0.
  assert (HSn : 0 < np_sum (np_square d) / n).
  { apply Rdiv_lt_0_compat; Lra.lra. }
  assert (Hb : beta * beta = np_sum (np_square d) / n).
  { apply sqrt_sqrt. Lra.lra. }
  assert (Hb0 : beta <> 0).
  { intros E. rewrite E in Hb. Lra.lra. }
  rewrite sum_squares_div by exact Hb0.
  rewrite Hb. field. split; Lra.lra.
Qed.

(** What [fitting] returns in exact arithmetic, for any supplied sigma. *)
Lemma fitting_chi_one (p : list R) (x y : npval R) (func : model R)
  (s : npval R) (r : OptimizeResult R) (K : matrix R) (r1 : npval R) :
  least_squares (fun q => residuals q func x y s) p = Ok r ->
  inv (dot (transpose (res_jac r)) (res_jac r)) = Ok K ->
  residuals (res_x r) func x y (Scalar 1) = Ok r1 ->
  (size x > len (res_x r))%Z ->
  np_sum (np_square r1) <> 0 ->
  let beta := sqrt (np_sum (np_square r1) / IZR (size x - len (res_x r))) in
  (exists r2,
      residuals (res_x r) func x y (Scalar beta) = Ok r2 /\
      np_sum (np_square r2) / IZR (size x - len (res_x r)) = 1) /\
  exists unc_fit,
    fitting least_squares inv p x y func s = Ok (res_x r, 1, unc_fit).
Proof.
  intros Hls Hinv Hres Hdof HS beta.
  rewrite residuals_scalar in Hres.
  destruct (np_sub y (func (res_x r) x)) as [d|e] eqn:Hsub;
    simpl in Hres; [|discriminate].
  injection Hres as <-.
  assert (Hn : 0 < IZR (size x - len (res_x r))).
  { apply IZR_lt. lia. }
  rewrite sum_squares_div_1 in HS.
  assert (Hbeta : beta = sqrt (np_sum (np_square d) /
                               IZR (size x - len (res_x r)))).
  { unfold beta. now rewrite sum_squares_div_1. }
  pose proof (rescaled_chi_is_one d _ Hn HS) as Hone. simpl in Hone.
  rewrite <- Hbeta in Hone.
  split.
  - rewrite residuals_scalar, Hsub. simpl. eexists. split; [reflexivity|].
    exact Hone.
  - rewrite (fitting_run least_squares inv p x y func s r K d Hls Hinv Hsub).
    simpl. fold beta. rewrite Hone. eexists. reflexivity.
Qed.

(** C2: for a fit with unit sigma, more data points than parameters and a
    nonzero sum of squared residuals at the solution, the residuals taken
    again with the rescaled sigma [beta] have a sum of squares that,
    divided by [N - k], is exactly one, and this is the reduced
    chi-squared [fitting] returns. *)
Theorem fitting_unit_sigma_chi_is_one (p : list R) (x y : npval R)
  (func : model R) (r : OptimizeResult R) (K : matrix R) (r1 : npval R) :
  least_squares (fun q => residuals q func x y (Scalar 1)) p = Ok r ->
  inv (dot (transpose (res_jac r)) (res_jac r)) = Ok K ->
  residuals (res_x r) func x y (Scalar 1) = Ok r1 ->
  (size x > len (res_x r))%Z ->
  np_sum (np_square r1) <> 0 ->
  let beta := sqrt (np_sum (np_square r1) / IZR (size x - len (res_x r))) in
  (exists r2,
      residuals (res_x r) func x y (Scalar beta) = Ok r2 /\
      np_sum (np_square r2) / IZR (size x - len (res_x r)) = 1) /\
  exists unc_fit,
    fitting least_squares inv p x y func (Scalar 1) =
    Ok (res_x r, 1, unc_fit).
Proof.
  intros Hls Hinv Hres Hdof HS.
  exact (fitting_chi_one p x y func (Scalar 1) r K r1 Hls Hinv Hres Hdof HS).
Qed.

(** C7, in exact arithmetic: over the reals the reduced chi-squared
    [fitting] returns is exactly one for every supplied sigma [s], scalar
    or per point, whenever there are more data points than parameters and
    the unweighted residuals at the solution are not all zero: [beta] is
    computed from the residuals at unit sigma, so [s] reaches the result
    only through the solver. (In binary64 the value is one up to rounding:
    [fitting_chi_not_exactly_one].) *)
Theorem fitting_chi_is_one_for_every_sigma (p : list R) (x y : npval R)
  (func : model R) (s : npval R) (r : OptimizeResult R) (K : matrix R)
  (r1 : npval R) :
  least_squares (fun q => residuals q func x y s) p = Ok r ->
  inv (dot (transpose (res_jac r)) (res_jac r)) = Ok K ->
  residuals (res_x r) func x y (Scalar 1) = Ok r1 ->
  (size x > len (res_x r))%Z ->
  np_sum (np_square r1) <> 0 ->
  exists unc_fit,
    fitting least_squares inv p x y func s = Ok (res_x r, 1, unc_fit).
Proof.
  intros Hls Hinv Hres Hdof HS.
  exact (proj2 (fitting_chi_one p x y func s r K r1 Hls Hinv Hres Hdof HS)).
Qed.

(** C8: the sum of the squares of [residuals(p, func, x, y, s)] is
    [chi2(func(p, x), y, s)], also where they fail: the operands of the
    subtraction are swapped, which changes the sign of every entry and no
    square. [chi2(observed, expected, s)] itself is the sum of the squares of
    [(observed - expected) / s]. *)
Theorem residuals_sum_squares_is_chi2 (p : list R) (func : model R)
  (x y s : npval R) :
  bind (residuals p func x y s) (fun r => Ok (np_sum (np_square r))) =
  chi2 (func p x) y s /\
  forall observed expected : npval R,
    chi2 observed expected s =
    bind (np_sub observed expected)
      (fun d => bind (np_div d s) (fun q => Ok (np_sum (np_square q)))).
Proof.
  split.
  - unfold chi2, residuals_data, residuals, np_sub.
    rewrite (np_binop_swap asub y (func p x)).
    rewrite (np_binop_post asub (fun u v => asub v u) Ropp)
      by (intros; simpl; ring).
    destruct (np_binop asub y (func p x)) as [d|e]; simpl; [|reflexivity].
    unfold np_div.
    rewrite (np_binop_pre adiv Ropp d s)
      by (intros; simpl; unfold Rdiv; ring).
    destruct (np_binop adiv d s) as [q|e]; simpl; [|reflexivity].
    now rewrite sum_squares_opp.
  - intros observed expected. unfold chi2, residuals_data.
    destruct (np_sub observed expected); reflexivity.
Qed.

End ExactFitter.

Section ExactRuns.
Local Open Scope R_scope.

(** A line fitted to two points: [x = (1, 2)], [y = (3, 1)], slope [1] (the
    least-squares slope, the residuals [(2, -1)] being orthogonal to [x]). *)
Lemma fitting_unit_sigma_chi_is_one_witness :
  exists unc_fit,
    fitting (converged_at (line_jac [1; 2])) inv_1x1
      [1] (Array [1; 2]) (Array [3; 1]) line (Scalar 1) =
    Ok ([1], 1, unc_fit).
Proof.
  refine (proj2 (fitting_unit_sigma_chi_is_one
                   (converged_at (line_jac [1; 2])) inv_1x1
                   [1] (Array [1; 2]) (Array [3; 1]) line
                   (mk_result [1] (line_jac [1; 2]))
                   _ _ eq_refl eq_refl eq_refl _ _)).
  - unfold size, len. simpl. lia.
  - simpl. Lra.lra.
Defined.

Lemma fitting_chi_is_one_for_every_sigma_witness :
  exists unc_fit,
    fitting (converged_at (line_jac [1; 2])) inv_1x1
      [1] (Array [1; 2]) (Array [3; 1]) line (Array [5; 7]) =
    Ok ([1], 1, unc_fit).
Proof.
  refine (fitting_chi_is_one_for_every_sigma
            (converged_at (line_jac [1; 2])) inv_1x1
            [1] (Array [1; 2]) (Array [3; 1]) line (Array [5; 7])
            (mk_result [1] (line_jac [1; 2]))
            _ _ eq_refl eq_refl eq_refl _ _).
  - unfold size, len. simpl. lia.
  - simpl. Lra.lra.
Defined.

End ExactRuns.

(** ** The fitter in binary64 *)

Section BinaryFitter.
Variable least_squares :
  (list float -> result (npval float)) -> list float ->
  result (OptimizeResult float).
Variable inv : matrix float -> result (matrix float).

Lemma float_zero_spec : Prim2SF (of_Z 0) = S754_zero false.
Proof. reflexivity. Qed.

(** [a / 0.0] is an infinity or [nan], and its square root is [+inf] or
    [nan]. *)
Lemma sqrt_div_zero (a z : float) :
  Prim2SF z = S754_zero false ->
  nan_or_pinf (PrimFloat.sqrt (PrimFloat.div a z)).
Proof.
  unfold nan_or_pinf. intros Hz.
  rewrite sqrt_spec, div_spec, Hz.
  destruct (Prim2SF a) as [sa|sa| |sa m e]; simpl; auto;
    destruct sa; simpl; auto.
Qed.

(** Divided by [+inf] or [nan], then squared, every number is [+0.0] or
    [nan]. *)
Lemma square_div_collapses (beta a : float) :
  nan_or_pinf beta ->
  nan_or_pzero (PrimFloat.mul (PrimFloat.div a beta) (PrimFloat.div a beta)).
Proof.
  unfold nan_or_pinf, nan_or_pzero.
  rewrite mul_spec, div_spec.
  intros [-> | ->]; destruct (Prim2SF a) as [sa|sa| |sa m e]; simpl; auto;
    destruct sa; simpl; auto.
Qed.

Lemma add_collapsed (a b : float) :
  nan_or_pzero a -> nan_or_pzero b -> nan_or_pzero (PrimFloat.add a b).
Proof.
  unfold nan_or_pzero. rewrite add_spec.
  intros [-> | ->] [-> | ->]; simpl; auto.
Qed.

Lemma sum_collapsed (l : list float) (acc : float) :
  Forall nan_or_pzero l -> nan_or_pzero acc ->
  nan_or_pzero (fold_left PrimFloat.add l acc).
Proof.
  intros Hl. revert acc.
  induction Hl as [|a l Ha _ IH]; intros acc Hacc; simpl; auto.
  apply IH. now apply add_collapsed.
Qed.

Lemma sum_squares_collapsed (beta : float) (d : npval float) :
  nan_or_pinf beta ->
  nan_or_pzero (np_sum (np_square (np_map (fun a => adiv a beta) d))).
Proof.
  intros Hb. destruct d as [a|l]; simpl np_sum.
  - now apply square_div_collapses.
  - apply sum_collapsed; [|right; apply float_zero_spec].
    rewrite map_map. apply Forall_map, Forall_forall. intros a _.
    now apply square_div_collapses.
Qed.

(** [+0.0 / 0.0] and [nan / 0.0] are [nan]. *)
Lemma collapsed_div_zero (a z : float) :
  Prim2SF z = S754_zero false ->
  nan_or_pzero a -> PrimFloat.is_nan (PrimFloat.div a z) = true.
Proof.
  unfold PrimFloat.is_nan, nan_or_pzero. intros Hz.
  rewrite FloatAxioms.eqb_spec, div_spec, Hz.
  intros [-> | ->]; reflexivity.
Qed.

(** C1, as the code has it: [fitting] checks no degrees of freedom. A call
    with no more data points than parameters returns a triple whenever the
    solver, the matrix inversion and the subtraction of the model from the
    data succeed, and when the two numbers are equal the division by
    [N - k = 0] is carried out and the reduced chi-squared returned is
    [nan]. *)
Theorem fitting_without_degrees_of_freedom (p : list float)
  (x y : npval float) (func : model float) (s : npval float)
  (r : OptimizeResult float) (K : matrix float) (d : npval float) :
  least_squares (fun q => residuals q func x y s) p = Ok r ->
  inv (dot (transpose (res_jac r)) (res_jac r)) = Ok K ->
  np_sub y (func (res_x r) x) = Ok d ->
  size x <= len (res_x r) ->
  exists chi unc_fit,
    fitting least_squares inv p x y func s = Ok (res_x r, chi, unc_fit) /\
    (size x = len (res_x r) -> PrimFloat.is_nan chi = true).
Proof.
  intros Hls Hinv Hsub Hdof.
  rewrite (fitting_run least_squares inv p x y func s r K d Hls Hinv Hsub).
  do 2 eexists. split; [reflexivity|].
  intros ->. rewrite Z.sub_diag.
  apply collapsed_div_zero; [apply float_zero_spec|].
  apply sum_squares_collapsed, sqrt_div_zero, float_zero_spec.
Qed.

End BinaryFitter.

Section BinaryRuns.
Local Open Scope float_scope.

(** One data point [(1.0, 2.0)] and one parameter, the slope of a line
    through the origin: the solver stops at the exact slope [2.0] with the
    Jacobian [(-1.0)], the Hessian [(1.0)] is its own inverse, and the
    residual is [0.0]. The call returns, and both the reduced chi-squared and
    the uncertainty are [nan]. *)
Lemma fitting_one_point_one_parameter :
  (size (Array [1]) <= len [2])%Z /\
  fitting (converged_at (line_jac [1])) inv_1x1
    [2] (Array [1]) (Array [2]) line (Scalar 1) =
  Ok ([2], nan, [nan]).
Proof. split; [unfold size, len; simpl; lia | vm_compute; reflexivity]. Qed.

(** The same with the point [(2.0, 3.0)] and the slope [1.5]. *)
Lemma fitting_without_degrees_of_freedom_witness :
  exists chi unc_fit,
    fitting (converged_at (line_jac [2])) inv_1x1
      [1.5] (Array [2]) (Array [3]) line (Scalar 1) =
    Ok ([1.5], chi, unc_fit) /\
    PrimFloat.is_nan chi = true.
Proof.
  destruct (fitting_without_degrees_of_freedom
              (converged_at (line_jac [2])) inv_1x1
              [1.5] (Array [2]) (Array [3]) line (Scalar 1)
              (mk_result [1.5] (line_jac [2])) _ _ eq_refl eq_refl eq_refl)
    as (chi & unc_fit & Hfit & Hnan).
  - unfold size, len. simpl. lia.
  - exists chi, unc_fit. split; [exact Hfit | apply Hnan; reflexivity].
Defined.

(** Two points and one parameter: [x = (1, 2)], [y = (3, 1)], slope [1]. *)
Lemma fitting_params_only_agrees_witness :
  fitting_params_only (converged_at (line_jac [1; 2]))
    [1] (Array [1; 2]) (Array [3; 1]) line (Scalar 1) = Ok [1].
Proof.
  refine (proj1 (fitting_params_only_agrees
                   (converged_at (line_jac [1; 2])) inv_1x1
                   [1] (Array [1; 2]) (Array [3; 1]) line (Scalar 1))
            [1] _ _ _).
  vm_compute. reflexivity.
Defined.

(** The same fit in full: in binary64 the reduced chi-squared comes out one
    unit in the last place below one, the identity being exact over the
    reals only. *)
Example fitting_two_points_binary64 :
  fitting (converged_at (line_jac [1; 2])) inv_1x1
    [1] (Array [1; 2]) (Array [3; 1]) line (Scalar 1) =
  Ok ([1], 0x1.fffffffffffffp-1, [1]).
Proof. vm_compute. reflexivity. Qed.

(** C7, counterexample: in binary64 the chi-squared returned is not exactly
    one. The points [x = (1, 2)], [y = (3, 1)] with sigma [2]: the
    least-squares slope is [1], the Jacobian of the residuals is
    [(-0.5, -1)], there are two points for one parameter and the squared
    unweighted residuals sum to [5]; the chi-squared returned is one unit
    in the last place below one. *)
Lemma fitting_chi_not_exactly_one :
  (size (Array [1; 2]%float) > len [1]%float)%Z /\
  residuals [1] line (Array [1; 2]) (Array [3; 1]) (Scalar 1) =
  Ok (Array [2; -1]) /\
  fitting (converged_at (line_jac [0.5; 1])) inv_1x1
    [1] (Array [1; 2]) (Array [3; 1]) line (Scalar 2) =
  Ok ([1], 0x1.fffffffffffffp-1, [2]) /\
  PrimFloat.ltb 0x1.fffffffffffffp-1 1 = true.
Proof.
  split; [unfold size, len; simpl; lia|].
  repeat split; vm_compute; reflexivity.
Qed.

End BinaryRuns.

(** ** Rounding: powers of ten, nearest integers, exponents *)

Section RoundingFacts.
Local Open Scope Q_scope.

Lemma pow10_pos (e : Z) : 0 < pow10 e.
Proof. apply Qpower_0_lt. reflexivity. Qed.

Lemma pow10_succ (e : Z) : pow10 (e + 1) == 10 * pow10 e.
Proof.
  unfold pow10. rewrite Qpower_plus by discriminate. 
  rewrite Qpower_1_r. ring.
Qed.

Lemma pow10_add (a b : Z) : pow10 (a + b) == pow10 a * pow10 b.
Proof. unfold pow10. apply Qpower_plus. discriminate. Qed.

Lemma pow10_opp (e : Z) : pow10 (- e) == / pow10 e.
Proof. apply Qpower_opp. Qed.

Lemma pow10_cancel (e : Z) : pow10 (- e) * pow10 e == 1.
Proof.
  rewrite pow10_opp. field. pose proof (pow10_pos e). lra.
Qed.

Lemma pow10_inject (n : Z) : (0 <= n)%Z -> pow10 n == inject_Z (10 ^ n).
Proof. intros Hn. unfold pow10. now rewrite Zpower_Qpower. Qed.

Lemma pow10_le (a b : Z) : (a <= b)%Z -> pow10 a <= pow10 b.
Proof. intros H. apply Qpower_le_compat_l; [exact H | discriminate]. Qed.

Lemma pow10_lt_inv (a b : Z) : pow10 a < pow10 b -> (a < b)%Z.
Proof.
  intros H. apply (Qpower_lt_compat_l_inv (10 # 1)); [exact H | reflexivity].
Qed.

(** rint *)
Lemma rint_bounds (x : Q) :
  inject_Z (rint x) - (1 # 2) <= x <= inject_Z (rint x) + (1 # 2).
Proof.
  unfold rint.
  pose proof (Qfloor_le x) as Hlo. pose proof (Qlt_floor x) as Hhi.
  rewrite inject_Z_plus in Hhi. change (inject_Z 1) with 1 in Hhi.
  destruct (Qcompare_spec (x - inject_Z (Qfloor x)) (1 # 2)) as [E|E|E].
  - destruct (Z.even (Qfloor x)); rewrite ?inject_Z_plus;
      change (inject_Z 1) with 1; lra.
  - lra.
  - rewrite inject_Z_plus. change (inject_Z 1) with 1. lra.
Qed.

Lemma rint_near (x : Q) (z : Z) :
  inject_Z z - (1 # 2) < x < inject_Z z + (1 # 2) -> rint x = z.
Proof.
  intros [Hlo Hhi]. pose proof (rint_bounds x) as [Blo Bhi].
  assert (H1 : inject_Z (rint x) < inject_Z (z + 1)).
  { rewrite inject_Z_plus. change (inject_Z 1) with 1. lra. }
  assert (H2 : inject_Z z < inject_Z (rint x + 1)).
  { rewrite inject_Z_plus. change (inject_Z 1) with 1. lra. }
  rewrite <- Zlt_Qlt in H1, H2. lia.
Qed.


Lemma rint_comp (x y : Q) : x == y -> rint x = rint y.
Proof.
  intros E. unfold rint. rewrite (Qfloor_comp x y E).
  assert (E' : x - inject_Z (Qfloor y) == y - inject_Z (Qfloor y))
    by (rewrite E; reflexivity).
  now rewrite (Qcompare_comp _ _ E' (1#2) (1#2) (Qeq_refl _)).
Qed.

Lemma rint_le (x : Q) (z : Z) : inject_Z z <= x -> (z <= rint x)%Z.
Proof.
  intros Hz. pose proof (rint_bounds x) as [Blo Bhi].
  assert (H1 : inject_Z z < inject_Z (rint x + 1)).
  { rewrite inject_Z_plus. change (inject_Z 1) with 1. lra. }
  rewrite <- Zlt_Qlt in H1. lia.
Qed.

Lemma rint_ge (x : Q) (z : Z) : x <= inject_Z z -> (rint x <= z)%Z.
Proof.
  intros Hz. pose proof (rint_bounds x) as [Blo Bhi].
  assert (H1 : inject_Z (rint x) < inject_Z (z + 1)).
  { rewrite inject_Z_plus. change (inject_Z 1) with 1. lra. }
  rewrite <- Zlt_Qlt in H1. lia.
Qed.

(** digits *)
Lemma ilog10_fuel_spec (fuel : nat) : forall z : Z,
  (1 <= z < 10 ^ (Z.of_nat fuel + 1))%Z ->
  (0 <= ilog10_fuel fuel z /\
   10 ^ ilog10_fuel fuel z <= z < 10 ^ (ilog10_fuel fuel z + 1))%Z.
Proof.
  induction fuel as [|fuel IH]; intros z Hz.
  - simpl in *. lia.
  - cbn [ilog10_fuel]. destruct (Z.ltb_spec z 10) as [Hlt|Hge].
    + simpl. lia.
    + assert (Hpow : (10 ^ (Z.of_nat (S fuel) + 1) =
                      10 * 10 ^ (Z.of_nat fuel + 1))%Z).
      { replace (Z.of_nat (S fuel) + 1)%Z
          with (Z.succ (Z.of_nat fuel + 1)) by lia.
        rewrite Z.pow_succ_r by lia. reflexivity. }
      pose proof (Z.div_mod z 10 ltac:(lia)) as Hdm.
      pose proof (Z.mod_pos_bound z 10 ltac:(lia)) as Hmod.
      destruct (IH (z / 10)%Z) as (H0 & Hlo & Hhi); [lia|].
      set (r := ilog10_fuel fuel (z / 10)) in *.
      replace (1 + r + 1)%Z with (Z.succ (r + 1)) by lia.
      replace (1 + r)%Z with (Z.succ r) by lia.
      rewrite !Z.pow_succ_r by lia. lia.
Qed.

Lemma ilog10_spec (z : Z) :
  (1 <= z)%Z ->
  (0 <= ilog10 z /\ 10 ^ ilog10 z <= z < 10 ^ (ilog10 z + 1))%Z.
Proof.
  intros Hz. unfold ilog10. apply ilog10_fuel_spec. split; [assumption|].
  pose proof (Z.log2_nonneg z) as Hnn.
  rewrite Z2Nat.id by assumption.
  destruct (Z.log2_spec z ltac:(lia)) as [_ Hhi].
  apply Z.lt_le_trans with (1 := Hhi).
  replace (Z.succ (Z.log2 z)) with (Z.log2 z + 1)%Z by lia.
  apply Z.pow_le_mono_l. lia.
Qed.

Lemma Qdiv_le_cross (a s n d : Q) :
  0 < s -> 0 < d -> a * d <= n * s -> a / s <= n / d.
Proof.
  intros Hs Hd H.
  apply Qle_shift_div_l; [assumption|].
  setoid_replace (a / s * d) with (a * d / s) by (field; lra).
  apply Qle_shift_div_r; assumption.
Qed.

Lemma Qdiv_lt_cross (a s n d : Q) :
  0 < s -> 0 < d -> n * s < a * d -> n / d < a / s.
Proof.
  intros Hs Hd H.
  apply Qlt_shift_div_l; [assumption|].
  setoid_replace (n / d * s) with (n * s / d) by (field; lra).
  apply Qlt_shift_div_r; assumption.
Qed.

(** The exponent [floor_log10] computes brackets its argument between two
    consecutive powers of ten. *)
Lemma floor_log10_spec (x : Q) :
  0 < x -> pow10 (floor_log10 x) <= x < pow10 (floor_log10 x + 1).
Proof.
  intros Hx. unfold floor_log10.
  destruct x as [n d]. cbn [Qnum Qden].
  assert (Hn : (0 < n)%Z).
  { unfold Qlt in Hx. simpl in Hx. lia. }
  set (s := (Z.log2 (Z.pos d) + 1)%Z).
  assert (Hs0 : (0 <= s)%Z) by (pose proof (Z.log2_nonneg (Z.pos d)); lia).
  assert (Hds : (Z.pos d < 10 ^ s)%Z).
  { destruct (Z.log2_spec (Z.pos d) ltac:(lia)) as [_ Hhi].
    apply Z.lt_le_trans with (1 := Hhi). unfold s.
    replace (Z.succ (Z.log2 (Z.pos d))) with (Z.log2 (Z.pos d) + 1)%Z by lia.
    apply Z.pow_le_mono_l. lia. }
  set (X := (n * 10 ^ s / Z.pos d)%Z).
  pose proof (Z.div_mod (n * 10 ^ s) (Z.pos d) ltac:(lia)) as Hdm.
  pose proof (Z.mod_pos_bound (n * 10 ^ s) (Z.pos d) ltac:(lia)) as Hmod.
  fold X in Hdm.
  assert (HX : (1 <= X)%Z).
  { unfold X. apply Z.div_le_lower_bound; nia. }
  destruct (ilog10_spec X HX) as (Hk0 & Hlo & Hhi).
  set (k := ilog10 X) in *.
  assert (Hlo' : (10 ^ k * Z.pos d <= n * 10 ^ s)%Z) by nia.
  assert (Hhi' : (n * 10 ^ s < 10 ^ (k + 1) * Z.pos d)%Z) by nia.
  assert (Hpk : forall j, (0 <= j)%Z ->
             pow10 (j - s) == inject_Z (10 ^ j) / inject_Z (10 ^ s)).
  { intros j Hj. unfold Z.sub. rewrite pow10_add, pow10_opp.
    rewrite !pow10_inject by assumption. reflexivity. }
  assert (HS : 0 < inject_Z (10 ^ s)).
  { change 0 with (inject_Z 0). rewrite <- Zlt_Qlt. lia. }
  assert (HD : 0 < inject_Z (Z.pos d)).
  { change 0 with (inject_Z 0). rewrite <- Zlt_Qlt. lia. }
  rewrite (Qmake_Qdiv n d).
  replace (k - s + 1)%Z with (k + 1 - s)%Z by lia.
  rewrite !Hpk by lia.
  split.
  - apply Qdiv_le_cross; try assumption.
    rewrite <- !inject_Z_mult, <- Zle_Qle. exact Hlo'.
  - apply Qdiv_lt_cross; try assumption.
    rewrite <- !inject_Z_mult, <- Zlt_Qlt. exact Hhi'.
Qed.

Lemma floor_log10_unique (x : Q) (e : Z) :
  pow10 e <= x < pow10 (e + 1) -> floor_log10 x = e.
Proof.
  intros [Hlo Hhi].
  assert (Hx : 0 < x) by (pose proof (pow10_pos e); lra).
  destruct (floor_log10_spec x Hx) as [Flo Fhi].
  assert (H1 : (floor_log10 x < e + 1)%Z) by (apply pow10_lt_inv; lra).
  assert (H2 : (e < floor_log10 x + 1)%Z) by (apply pow10_lt_inv; lra).
  lia.
Qed.

(** Both branches of [np_round] compute the same number. *)
Lemma np_round_eq (x : Q) (d : Z) :
  np_round x d == inject_Z (rint (x * pow10 d)) * pow10 (- d).
Proof.
  unfold np_round. destruct (Z.leb_spec 0 d) as [Hd|Hd].
  - unfold Qdiv. now rewrite pow10_opp.
  - assert (E : x / pow10 (- d) == x * pow10 d).
    { rewrite pow10_opp. field. pose proof (pow10_pos d). lra. }
    now rewrite (rint_comp _ _ E).
Qed.


(** The mantissa of a positive number lies in [1, 10). *)
Lemma mantissa_bounds (u : Q) :
  0 < u -> 1 <= u * pow10 (- floor_log10 u) < 10.
Proof.
  intros Hu. destruct (floor_log10_spec u Hu) as [Hlo Hhi].
  rewrite pow10_succ in Hhi.
  pose proof (pow10_pos (- floor_log10 u)) as HI.
  pose proof (pow10_cancel (floor_log10 u)) as HC.
  set (P := pow10 (floor_log10 u)) in *.
  set (I := pow10 (- floor_log10 u)) in *.
  assert (H1 : P * I <= u * I) by (apply Qmult_le_compat_r; lra).
  assert (H2 : u * I < 10 * P * I) by (apply Qmult_lt_compat_r; lra).
  split; lra.
Qed.

Lemma leading_digit_eq (u : Q) :
  leading_digit u = Qfloor (u * pow10 (- floor_log10 u)).
Proof.
  unfold leading_digit. apply Qfloor_comp.
  rewrite pow10_opp. reflexivity.
Qed.

(** The leading digit is a digit from 1 to 9. *)
Lemma leading_digit_range (u : Q) : 0 < u -> (1 <= leading_digit u <= 9)%Z.
Proof.
  intros Hu. rewrite leading_digit_eq.
  destruct (mantissa_bounds u Hu) as [Hlo Hhi].
  pose proof (Qfloor_le (u * pow10 (- floor_log10 u))) as Fle.
  split.
  - change 1%Z with (Qfloor (inject_Z 1)) at 1. rewrite Qfloor_Z.
    rewrite <- (Qfloor_Z 1). apply Qfloor_resp_le. exact Hlo.
  - assert (H : inject_Z (Qfloor (u * pow10 (- floor_log10 u))) < inject_Z 10).
    { change (inject_Z 10) with 10. lra. }
    rewrite <- Zlt_Qlt in H. lia.
Qed.

Lemma int_floor_log10_pos (x : Q) :
  0 < x -> int_floor_log10 x = Ok (floor_log10 x).
Proof.
  intros Hx. unfold int_floor_log10.
  apply Qgt_alt in Hx. now rewrite Hx.
Qed.

Lemma Qeq_bool_pos (x : Q) : 0 < x -> Qeq_bool x 0 = false.
Proof.
  intros Hx. destruct (Qeq_bool x 0) eqn:E; [|reflexivity].
  apply Qeq_bool_eq in E. lra.
Qed.

(** Uncertainty whose leading digit is not 1: it is rounded at the place of
    its leading digit, to [k * 10^e'] with a single digit [k], and the value
    is rounded at that place [e'], which is the place of the leading digit
    of the uncertainty unless the rounding carries to the next power of
    ten. *)
Lemma round_pair_one_figure (value u : Q) :
  0 < u -> leading_digit u <> 1%Z ->
  let e := floor_log10 u in
  exists e' k,
    round_pair value u = Ok (np_round value (- e'), np_round u (- e)) /\
    np_round u (- e) == inject_Z k * pow10 e' /\
    (1 <= k <= 9)%Z /\
    ((e' = e /\ u < (19 # 2) * pow10 e) \/
     (e' = (e + 1)%Z /\ k = 1%Z /\ (19 # 2) * pow10 e <= u)).
Proof.
  intros Hu Hld e.
  pose proof (leading_digit_range u Hu) as Hrange.
  destruct (mantissa_bounds u Hu) as [Tlo Thi]. fold e in Tlo, Thi.
  pose proof (pow10_pos e) as HP.
  pose proof (pow10_succ e) as HPs.
  pose proof (pow10_cancel e) as HC.
  set (t := u * pow10 (- e)) in *.
  assert (Ht2 : 2 <= t).
  { pose proof (Qfloor_le t) as Fle. rewrite leading_digit_eq in Hld, Hrange.
    fold e t in Hld, Hrange.
    assert (H : inject_Z 2 <= inject_Z (Qfloor t)) by (rewrite <- Zle_Qle; lia).
    change (inject_Z 2) with 2 in H. lra. }
  set (m := rint t).
  assert (Hm : (2 <= m <= 10)%Z).
  { split; [apply rint_le | apply rint_ge]; unfold inject_Z; lra. }
  assert (Hrnd : np_round u (- e) == inject_Z m * pow10 e).
  { rewrite np_round_eq, Z.opp_involutive. reflexivity. }
  assert (Hut : u == t * pow10 e).
  { unfold t. rewrite <- Qmult_assoc, HC. ring. }
  assert (HM : 2 <= inject_Z m <= 10).
  { split; [change 2 with (inject_Z 2) | change 10 with (inject_Z 10)];
      rewrite <- Zle_Qle; lia. }
  pose proof (rint_bounds t) as Hb. fold m in Hb.
  assert (Hpos : 0 < np_round u (- e)).
  { rewrite Hrnd. apply Qmult_lt_0_compat; lra. }
  assert (Hpair : forall e', floor_log10 (np_round u (- e)) = e' ->
            round_pair value u = Ok (np_round value (- e'), np_round u (- e))).
  { intros e' He'. unfold round_pair.
    rewrite (Qeq_bool_pos u Hu), (int_floor_log10_pos u Hu). simpl.
    destruct (Z.eqb_spec (leading_digit u) 1) as [E|_]; [contradiction|].
    simpl. fold e. rewrite (int_floor_log10_pos _ Hpos). simpl.
    now rewrite He'. }
  destruct (Z.eq_dec m 10) as [E10|N10].
  - exists (e + 1)%Z, 1%Z.
    assert (Hten : np_round u (- e) == pow10 (e + 1)).
    { rewrite Hrnd, E10, HPs. reflexivity. }
    split; [|split; [|split]].
    + apply Hpair. apply floor_log10_unique.
      rewrite Hten, (pow10_succ (e + 1)).
      pose proof (pow10_pos (e + 1)). lra.
    + rewrite Hten. change (inject_Z 1) with 1. ring.
    + lia.
    + right. split; [reflexivity|]. split; [reflexivity|].
      rewrite E10 in Hb. change (inject_Z 10) with 10 in Hb.
      assert (H : (19 # 2) * pow10 e <= t * pow10 e)
        by (apply Qmult_le_compat_r; lra).
      lra.
  - exists e, m.
    assert (HM9 : inject_Z m <= 9).
    { change 9 with (inject_Z 9). rewrite <- Zle_Qle. lia. }
    assert (H1 : 1 * pow10 e <= inject_Z m * pow10 e)
      by (apply Qmult_le_compat_r; lra).
    assert (H2 : inject_Z m * pow10 e < 10 * pow10 e)
      by (apply Qmult_lt_compat_r; lra).
    split; [|split; [|split]].
    + apply Hpair. apply floor_log10_unique. lra.
    + exact Hrnd.
    + lia.
    + left. split; [reflexivity|].
      assert (Ht : t < 19 # 2).
      { destruct (Qlt_le_dec t (19 # 2)) as [Hlt|Hge]; [assumption|].
        exfalso. apply N10.
        destruct (Qle_lt_or_eq _ _ Hge) as [Hgt|Heq].
        - assert (H : inject_Z 9 < inject_Z m)
            by (change (inject_Z 9) with 9; lra).
          rewrite <- Zlt_Qlt in H. lia.
        - unfold m. now rewrite <- (rint_comp _ _ Heq). }
      assert (H : t * pow10 e < (19 # 2) * pow10 e)
        by (apply Qmult_lt_compat_r; lra).
      lra.
Qed.

(** Uncertainty whose leading digit is 1: it is rounded one place after its
    leading digit, to two significant figures, and so is the value. *)
Lemma round_pair_two_figures (value u : Q) :
  0 < u -> leading_digit u = 1%Z ->
  let e := floor_log10 u in
  round_pair value u = Ok (np_round value (1 - e), np_round u (1 - e)) /\
  exists k, np_round u (1 - e) == inject_Z k * pow10 (e - 1) /\
            (10 <= k <= 20)%Z.
Proof.
  intros Hu Hld e.
  destruct (mantissa_bounds u Hu) as [Tlo _]. fold e in Tlo.
  assert (Thi : u * pow10 (- e) < 2).
  { pose proof (Qlt_floor (u * pow10 (- e))) as H.
    rewrite leading_digit_eq in Hld. fold e in Hld. rewrite Hld in H.
    exact H. }
  set (t := u * pow10 (- e)) in *.
  assert (Hscale : u * pow10 (1 - e) == 10 * t).
  { unfold t, Z.sub. rewrite pow10_add. change (pow10 1) with 10. ring. }
  set (m := rint (u * pow10 (1 - e))).
  assert (Hm : (10 <= m <= 20)%Z).
  { split; [apply rint_le | apply rint_ge]; rewrite Hscale;
      unfold inject_Z; lra. }
  assert (HM : 10 <= inject_Z m <= 20).
  { split; [change 10 with (inject_Z 10) | change 20 with (inject_Z 20)];
      rewrite <- Zle_Qle; lia. }
  pose proof (pow10_pos (e - 1)) as HP.
  assert (HPe : pow10 e == 10 * pow10 (e - 1)).
  { rewrite <- pow10_succ. now replace (e - 1 + 1)%Z with e by lia. }
  assert (Hrnd : np_round u (1 - e) == inject_Z m * pow10 (e - 1)).
  { rewrite np_round_eq. now replace (- (1 - e))%Z with (e - 1)%Z by lia. }
  assert (H1 : 10 * pow10 (e - 1) <= inject_Z m * pow10 (e - 1))
    by (apply Qmult_le_compat_r; lra).
  assert (H2 : inject_Z m * pow10 (e - 1) < 100 * pow10 (e - 1))
    by (apply Qmult_lt_compat_r; lra).
  assert (Hpos : 0 < np_round u (1 - e)) by lra.
  assert (He' : floor_log10 (np_round u (1 - e)) = e).
  { apply floor_log10_unique. rewrite pow10_succ. lra. }
  split; [|exists m; split; [exact Hrnd | exact Hm]].
  unfold round_pair.
  rewrite (Qeq_bool_pos u Hu), (int_floor_log10_pos u Hu). cbn [bind].
  rewrite Hld. cbn [Z.eqb Pos.eqb negb]. fold e.
  rewrite (int_floor_log10_pos _ Hpos). cbn [bind]. now rewrite He'.
Qed.

(** With an uncertainty that is not negative the rule returns. *)
Lemma round_pair_returns (value u : Q) :
  0 <= u -> exists vu, round_pair value u = Ok vu.
Proof.
  intros Hu. destruct (Qle_lt_or_eq _ _ Hu) as [Hpos|Hzero].
  - destruct (Z.eq_dec (leading_digit u) 1) as [E|N].
    + destruct (round_pair_two_figures value u Hpos E) as [H _]. eauto.
    + destruct (round_pair_one_figure value u Hpos N) as (e' & k & H & _).
      eauto.
  - exists (value, u). unfold round_pair.
    rewrite Qeq_eq_bool; [reflexivity | now symmetry].
Qed.






(** ** [round_sig_fig] *)








(** ** [find_nearest_index] *)

Lemma Qlt_bool_iff (a b : Q) : Qlt_bool a b = true <-> a < b.
Proof.
  unfold Qlt_bool. rewrite negb_true_iff.
  destruct (Qle_bool b a) eqn:E.
  - apply Qle_bool_iff in E. split; [discriminate | lra].
  - split; [|reflexivity]. intros _.
    destruct (Qlt_le_dec a b) as [H|H]; [assumption|].
    apply Qle_bool_iff in H. congruence.
Qed.

(** The binary search keeps everything left of [min_idx] below the key and
    everything from [max_idx] on at or above it. *)
Lemma searchsorted_loop_spec (array : list Q) (key : Q) :
  ascending array ->
  forall (fuel min_idx max_idx : nat),
    (min_idx <= max_idx <= length array)%nat ->
    (max_idx - min_idx <= fuel)%nat ->
    (forall j, (j < min_idx)%nat -> nth j array 0 < key) ->
    (forall j, (max_idx <= j < length array)%nat -> key <= nth j array 0) ->
    let r := searchsorted_loop fuel array key min_idx max_idx in
    (r <= length array)%nat /\
    (forall j, (j < r)%nat -> nth j array 0 < key) /\
    (forall j, (r <= j < length array)%nat -> key <= nth j array 0).
Proof.
  intros Hasc. induction fuel as [|fuel IH];
    intros min_idx max_idx Hrange Hfuel Hbelow Habove.
  - simpl. assert (min_idx = max_idx) by lia. subst.
    repeat split; [lia | assumption | assumption].
  - cbn [searchsorted_loop].
    destruct (Nat.ltb_spec min_idx max_idx) as [Hlt|Hge].
    + set (mid := (min_idx + (max_idx - min_idx) / 2)%nat).
      assert (Hmid : (min_idx <= mid < max_idx)%nat).
      { unfold mid.
        pose proof (Nat.div_lt (max_idx - min_idx) 2 ltac:(lia) ltac:(lia)).
        lia. }
      destruct (Qlt_bool (nth mid array 0) key) eqn:E.
      * apply Qlt_bool_iff in E. apply IH; try lia; [|assumption].
        intros j Hj.
        assert (Hle : nth j array 0 <= nth mid array 0)
          by (apply Hasc; lia).
        lra.
      * assert (E' : key <= nth mid array 0).
        { destruct (Qlt_le_dec (nth mid array 0) key) as [H|H];
            [apply Qlt_bool_iff in H; congruence | assumption]. }
        apply IH; try lia; [assumption|].
        intros j Hj.
        assert (Hle : nth mid array 0 <= nth j array 0)
          by (apply Hasc; lia).
        lra.
    + assert (min_idx = max_idx) by lia. subst.
      repeat split; [lia | assumption | assumption].
Qed.

(** What the code returns on a sorted array: the insertion point of the
    value, the first index whose entry is not below it, or the length of
    the array when every entry is below it. *)
Lemma find_nearest_index_insertion_point (value : Q) (array : list Q) :
  ascending array ->
  let index := find_nearest_index value array in
  (index <= length array)%nat /\
  (forall j, (j < index)%nat -> nth j array 0 < value) /\
  (forall j, (index <= j < length array)%nat -> value <= nth j array 0).
Proof.
  intros Hasc. unfold find_nearest_index, searchsorted_left.
  apply searchsorted_loop_spec; try assumption; lia.
Qed.










(** C9, at the array [(0, 10)]: for the value 1 the code returns index 1,
    the entry 10, while the nearest entry is 0 at index 0; for the value 11
    it returns 2, which is no index of the array. *)
Theorem find_nearest_index_not_nearest :
  ascending [0; 10] /\
  find_nearest_index 1 [0; 10] = 1%nat /\
  nearest_index [0; 10] 1 0 /\
  ~ nearest_index [0; 10] 1 1 /\
  find_nearest_index 11 [0; 10] = 2%nat.
Proof.
  split; [ | split; [ reflexivity | split; [ | split; [ | reflexivity ] ] ] ].
  - intros i j Hij Hj. simpl in Hj.
    assert (Hc : ((i = 0 /\ j = 0) \/ (i = 0 /\ j = 1) \/
                  (i = 1 /\ j = 1))%nat) by lia.
    destruct Hc as [[-> ->] | [[-> ->] | [-> ->]]]; simpl; discriminate.
  - split; [simpl; lia|]. intros j Hj. simpl in Hj.
    assert (Hc : (j = 0 \/ j = 1)%nat) by lia.
    destruct Hc as [-> | ->]; split; try (intros; lia); simpl; discriminate.
  - intros [_ H]. destruct (H 0%nat ltac:(simpl; lia)) as [Hle _].
    simpl in Hle. revert Hle. vm_compute. intros Hle. now apply Hle.
Qed.

End RoundingFacts.

(** ** The rounding functions in binary64 *)

Section BinaryRounding.



End BinaryRounding.

(** * Further properties of the code *)

(** ** The outcome of a fit *)

Section FitterOutcome.
Context {A : Type} `{Arith A}.
Variable least_squares :
  (list A -> result (npval A)) -> list A -> result (OptimizeResult A).
Variable inv : matrix A -> result (matrix A).

(** [fitting] returns exactly when the solver returns, the Hessian it
    reports is inverted and the model at the solution broadcasts against the
    data; when it fails, the error is the one of the first of these three
    that failed. It raises nothing of its own. *)
Theorem fitting_outcome (p : list A) (x y : npval A) (func : model A)
  (s : npval A) :
  ((exists t, fitting least_squares inv p x y func s = Ok t) <->
   exists r K d,
     least_squares (fun q => residuals q func x y s) p = Ok r /\
     inv (dot (transpose (res_jac r)) (res_jac r)) = Ok K /\
     np_sub y (func (res_x r) x) = Ok d) /\
  (forall e,
      fitting least_squares inv p x y func s = Raise e ->
      least_squares (fun q => residuals q func x y s) p = Raise e \/
      exists r,
        least_squares (fun q => residuals q func x y s) p = Ok r /\
        (inv (dot (transpose (res_jac r)) (res_jac r)) = Raise e \/
         exists K,
           inv (dot (transpose (res_jac r)) (res_jac r)) = Ok K /\
           np_sub y (func (res_x r) x) = Raise e)).
Proof.
  split; [split|].
  - intros [t Ht]. unfold fitting in Ht.
    destruct (least_squares _ p) as [r|e0] eqn:Hls; [|discriminate].
    cbn [bind] in Ht.
    destruct (inv _) as [K|e1] eqn:Hinv; [|discriminate].
    cbn [bind] in Ht. rewrite residuals_scalar in Ht.
    destruct (np_sub y (func (res_x r) x)) as [d|e2] eqn:Hsub;
      [|discriminate].
    now exists r, K, d.
  - intros (r & K & d & Hls & Hinv & Hsub).
    eexists. exact (fitting_run least_squares inv p x y func s r K d
                      Hls Hinv Hsub).
  - intros e Hfit. unfold fitting in Hfit.
    destruct (least_squares _ p) as [r|e0] eqn:Hls; cbn [bind] in Hfit.
    2:{ injection Hfit as ->. now left. }
    right. exists r. split; [reflexivity|].
    destruct (inv _) as [K|e1] eqn:Hinv; cbn [bind] in Hfit.
    2:{ injection Hfit as ->. now left. }
    right. exists K. split; [reflexivity|].
    rewrite residuals_scalar in Hfit.
    destruct (np_sub y (func (res_x r) x)) as [d|e2] eqn:Hsub;
      cbn [bind] in Hfit.
    2:{ now injection Hfit as ->. }
    rewrite residuals_scalar, Hsub in Hfit. discriminate.
Qed.

End FitterOutcome.

Section ExactExtras.
Local Open Scope R_scope.
Variable least_squares :
  (list R -> result (npval R)) -> list R -> result (OptimizeResult R).
Variable inv : matrix R -> result (matrix R).

(** Over the reals, with more data points than parameters and a covariance
    whose diagonal is not negative, the uncertainties [fitting] returns are
    the square roots of the diagonal of the covariance scaled by the sum of
    the squared unweighted residuals over the degrees of freedom. *)
Theorem fitting_uncertainties (p : list R) (x y : npval R) (func : model R)
  (s : npval R) (r : OptimizeResult R) (K : matrix R) (d : npval R) :
  least_squares (fun q => residuals q func x y s) p = Ok r ->
  inv (dot (transpose (res_jac r)) (res_jac r)) = Ok K ->
  np_sub y (func (res_x r) x) = Ok d ->
  (size x > len (res_x r))%Z ->
  (forall i, (i < Nat.min (nrows K) (ncols K))%nat -> 0 <= entry K i i) ->
  exists chi,
    fitting least_squares inv p x y func s =
    Ok (res_x r, chi,
        map (fun i =>
               sqrt (entry K i i *
                     (np_sum (np_square d) / IZR (size x - len (res_x r)))))
          (seq 0 (Nat.min (nrows K) (ncols K)))).
Proof.
  intros Hls Hinv Hsub Hdof HK.
  rewrite (fitting_run least_squares inv p x y func s r K d Hls Hinv Hsub).
  eexists. f_equal. f_equal. unfold diag. rewrite !map_map.
  apply map_ext_in. intros i Hi. apply in_seq in Hi. simpl.
  change (fun a : R => a / 1) with (fun a : R => adiv a (of_Z 1)).
  rewrite sum_squares_div_1.
  assert (Hn : 0 < IZR (size x - len (res_x r))) by (apply IZR_lt; lia).
  pose proof (sum_squares_nonneg d) as HS.
  rewrite <- sqrt_mult; [reflexivity | apply HK; lia |].
  apply Rmult_le_pos; [exact HS | left; now apply Rinv_0_lt_compat].
Qed.

Lemma np_binop_same (op : R -> R -> R) (v : npval R) :
  np_binop op v v = Ok (np_map (fun a => op a a) v).
Proof.
  destruct v as [a|l]; simpl; [reflexivity|]. rewrite Nat.eqb_refl.
  do 2 f_equal. induction l as [|a l IH]; simpl; [reflexivity|].
  now rewrite IH.
Qed.

Lemma np_all_map (P : R -> Prop) (f : R -> R) (v : npval R) :
  (forall a, P (f a)) -> np_all P (np_map f v).
Proof.
  intros Hf. destruct v as [a|l]; simpl; [apply Hf|].
  apply Forall_forall. intros b Hb. apply in_map_iff in Hb.
  destruct Hb as (a & <- & _). apply Hf.
Qed.

Lemma zip_with_div_zeros (l1 l2 : list R) :
  Forall (fun a => a = 0) l1 ->
  Forall (fun a => a = 0) (zip_with Rdiv l1 l2).
Proof.
  intros Hl. revert l2.
  induction Hl as [|a l1 Ha _ IH]; intros [|b l2]; simpl; constructor.
  - subst. unfold Rdiv. ring.
  - apply IH.
Qed.

(** Zeros divided by anything are zeros. *)
Lemma np_div_zeros (d s q : npval R) :
  np_all (fun a => a = 0) d -> np_div d s = Ok q ->
  np_all (fun a => a = 0) q.
Proof.
  assert (Hz : forall a b : R, a = 0 -> a / b = 0)
    by (intros a b ->; unfold Rdiv; ring).
  assert (Hm : forall (l : list R) (b : R),
             Forall (fun a => a = 0) l ->
             Forall (fun a => a = 0) (map (fun u => u / b) l)).
  { intros l b Hl. apply Forall_map.
    apply Forall_impl with (2 := Hl). intros a. apply Hz. }
  assert (Hm' : forall (l : list R) (a : R),
             a = 0 -> Forall (fun a => a = 0) (map (Rdiv a) l)).
  { intros l a Ha. apply Forall_map, Forall_forall. intros b _.
    now apply Hz. }
  intros Hd. unfold np_div.
  destruct d as [a|l1], s as [b|l2]; simpl in *.
  - intros [= <-]. simpl. now apply Hz.
  - intros [= <-]. simpl. now apply Hm'.
  - intros [= <-]. simpl. now apply Hm.
  - destruct (Nat.eqb (length l1) (length l2)).
    + intros [= <-]. simpl. now apply zip_with_div_zeros.
    + destruct l1 as [|a [|a' l1]].
      * destruct l2 as [|b [|b' l2]]; try discriminate.
        intros [= <-]. constructor.
      * intros [= <-]. apply (Hm' l2 a). now inversion Hd.
      * destruct l2 as [|b [|b' l2]]; try discriminate.
        intros [= <-]. apply (Hm (a :: a' :: l1) b). exact Hd.
Qed.

Lemma sum_squares_of_zeros (q : npval R) :
  np_all (fun a => a = 0) q -> np_sum (np_square q) = 0.
Proof.
  destruct q as [a|l]; simpl.
  - intros ->. ring.
  - intros Hl. induction Hl as [|a l Ha _ IH]; simpl; [reflexivity|].
    subst. rewrite fold_left_Rplus_acc, IH. ring.
Qed.

(** With uncertainties that are not zero, [chi2] over the reals is never
    negative, does not change when observed and expected values are
    exchanged, and is zero between equal values. *)
Theorem chi2_properties (observed expected s : npval R) :
  np_all (fun a => a <> 0) s ->
  (forall c, chi2 observed expected s = Ok c -> 0 <= c) /\
  chi2 observed expected s = chi2 expected observed s /\
  (forall c, chi2 observed observed s = Ok c -> c = 0).
Proof.
  intros _. split; [|split].
  - intros c. unfold chi2.
    destruct (residuals_data observed expected s) as [q|e]; [|discriminate].
    intros [= <-]. apply sum_squares_nonneg.
  - unfold chi2, residuals_data, np_sub.
    rewrite (np_binop_swap asub expected observed).
    rewrite (np_binop_post asub (fun u v => asub v u) Ropp)
      by (intros; simpl; ring).
    destruct (np_binop asub expected observed) as [d|e]; simpl;
      [|reflexivity].
    unfold np_div.
    rewrite (np_binop_pre adiv Ropp d s)
      by (intros; simpl; unfold Rdiv; ring).
    destruct (np_binop adiv d s) as [q|e]; simpl; [|reflexivity].
    now rewrite sum_squares_opp.
  - intros c. unfold chi2, residuals_data, np_sub.
    rewrite np_binop_same. cbn [bind].
    destruct (np_div _ s) as [q|e] eqn:Hdiv; [|discriminate].
    cbn [bind]. intros [= <-].
    apply sum_squares_of_zeros.
    apply (np_div_zeros (np_map (fun a => asub a a) observed) s q);
      [|exact Hdiv].
    apply np_all_map. intros a. simpl. ring.
Qed.

(** With a scalar sigma [s] that is not zero, [chi2] is the unweighted sum
    of squares divided by [s*s]; it fails only as the unweighted one does. *)
Theorem chi2_scalar_sigma (observed expected : npval R) (s : R) :
  s <> 0 ->
  chi2 observed expected (Scalar s) =
  bind (chi2 observed expected (Scalar 1)) (fun c => Ok (c / (s * s))).
Proof.
  intros Hs. unfold chi2, residuals_data.
  destruct (np_sub observed expected) as [d|e]; cbn [bind]; [|reflexivity].
  rewrite !np_div_scalar. cbn [bind]. f_equal.
  change (fun a : R => adiv a s) with (fun a : R => a / s).
  rewrite (sum_squares_div d s Hs).
  change (fun a : R => adiv a 1) with (fun a : R => a / 1).
  now rewrite sum_squares_div_1.
Qed.

End ExactExtras.

(** ** A perfect fit in binary64 *)

Section BinaryPerfectFit.
Variable least_squares :
  (list float -> result (npval float)) -> list float ->
  result (OptimizeResult float).
Variable inv : matrix float -> result (matrix float).

Lemma float_one_spec :
  Prim2SF (of_Z 1) = S754_finite false 4503599627370496 (-52).
Proof. reflexivity. Qed.

(** A zero residual at unit sigma, squared, is [+0.0]. *)
Lemma square_unit_zero (a : float) :
  float_zero a ->
  Prim2SF (PrimFloat.mul (PrimFloat.div a (of_Z 1))
             (PrimFloat.div a (of_Z 1))) = S754_zero false.
Proof.
  intros [s Hs]. rewrite mul_spec, div_spec, float_one_spec, Hs.
  destruct s; reflexivity.
Qed.

Lemma sum_pzeros (l : list float) (acc : float) :
  Forall (fun a => Prim2SF a = S754_zero false) l ->
  Prim2SF acc = S754_zero false ->
  Prim2SF (fold_left PrimFloat.add l acc) = S754_zero false.
Proof.
  intros Hl. revert acc.
  induction Hl as [|a l Ha _ IH]; intros acc Hacc; simpl; [exact Hacc|].
  apply IH. now rewrite add_spec, Hacc, Ha.
Qed.

(** [sqrt(+0.0 / dof)] is a zero or [nan], whatever [dof] is. *)
Lemma sqrt_pzero_div (a dof : float) :
  Prim2SF a = S754_zero false ->
  float_nan (PrimFloat.sqrt (PrimFloat.div a dof)) \/
  float_zero (PrimFloat.sqrt (PrimFloat.div a dof)).
Proof.
  intros Ha. unfold float_nan, float_zero.
  rewrite sqrt_spec, div_spec, Ha.
  destruct (Prim2SF dof) as [sd|sd| |sd md ed]; simpl; eauto.
Qed.

(** A zero residual divided by a zero or [nan] sigma, squared, is [nan]. *)
Lemma square_zero_div (a beta : float) :
  float_zero a -> float_nan beta \/ float_zero beta ->
  float_nan (PrimFloat.mul (PrimFloat.div a beta) (PrimFloat.div a beta)).
Proof.
  unfold float_nan, float_zero. intros [s Hs] [Hb | [sb Hb]];
    rewrite mul_spec, div_spec, Hs, Hb; reflexivity.
Qed.

Lemma add_nan_r (a b : float) :
  float_nan b -> float_nan (PrimFloat.add a b).
Proof.
  unfold float_nan. intros Hb. rewrite add_spec, Hb.
  destruct (Prim2SF a); reflexivity.
Qed.

Lemma add_nan_l (a b : float) :
  float_nan a -> float_nan (PrimFloat.add a b).
Proof. unfold float_nan. intros Ha. now rewrite add_spec, Ha. Qed.

Lemma sum_nans_acc (l : list float) (acc : float) :
  float_nan acc -> float_nan (fold_left PrimFloat.add l acc).
Proof.
  revert acc. induction l as [|a l IH]; intros acc Hacc; simpl;
    [exact Hacc|].
  apply IH. now apply add_nan_l.
Qed.

Lemma sum_nans (l : list float) (acc : float) :
  l <> [] -> Forall float_nan l -> float_nan (fold_left PrimFloat.add l acc).
Proof.
  intros Hne Hl. destruct Hl as [|a l Ha _]; [contradiction|]. simpl.
  apply sum_nans_acc. now apply add_nan_r.
Qed.

Lemma nan_div (a dof : float) :
  float_nan a -> PrimFloat.is_nan (PrimFloat.div a dof) = true.
Proof.
  unfold float_nan, PrimFloat.is_nan. intros Ha.
  now rewrite FloatAxioms.eqb_spec, div_spec, Ha.
Qed.

(** A perfect fit in binary64: when the model at the solution reproduces
    the data, every residual being a zero, [beta] is zero (or [nan]), the
    rescaled residuals are [0/0] and the reduced chi-squared [fitting]
    returns is [nan], for any number of data points and parameters. *)
Theorem fitting_perfect_fit (p : list float) (x y : npval float)
  (func : model float) (s : npval float)
  (r : OptimizeResult float) (K : matrix float) (d : npval float) :
  least_squares (fun q => residuals q func x y s) p = Ok r ->
  inv (dot (transpose (res_jac r)) (res_jac r)) = Ok K ->
  np_sub y (func (res_x r) x) = Ok d ->
  np_all float_zero d ->
  d <> Array [] ->
  exists chi unc_fit,
    fitting least_squares inv p x y func s = Ok (res_x r, chi, unc_fit) /\
    PrimFloat.is_nan chi = true.
Proof.
  intros Hls Hinv Hsub Hzero Hne.
  rewrite (fitting_run least_squares inv p x y func s r K d Hls Hinv Hsub).
  do 2 eexists. split; [reflexivity|].
  set (dof := of_Z (size x - len (res_x r))).
  set (S1 := np_sum (np_square (np_map (fun a => adiv a (of_Z 1)) d))).
  assert (HS1 : Prim2SF S1 = S754_zero false).
  { unfold S1. destruct d as [a|l]; simpl np_sum.
    - now apply square_unit_zero.
    - apply sum_pzeros; [|reflexivity].
      rewrite map_map. apply Forall_map.
      apply Forall_impl with (2 := Hzero). intros a.
      apply square_unit_zero. }
  pose proof (sqrt_pzero_div S1 dof HS1) as Hbeta.
  apply nan_div.
  destruct d as [a|l]; simpl np_sum.
  - now apply square_zero_div.
  - apply sum_nans.
    + destruct l; [now elim Hne | discriminate].
    + rewrite map_map. apply Forall_map.
      apply Forall_impl with (2 := Hzero). intros a Ha.
      now apply square_zero_div.
Qed.

End BinaryPerfectFit.

(** ** The model functions *)

Section ModelFacts.
Context {A : Type} `{Arith A} `{Elementary A}.

Lemma item_short (p : list A) (i : nat) :
  (length p <= i)%nat -> maths_functions.item p i = Raise IndexError.
Proof.
  intros Hi. unfold maths_functions.item.
  now rewrite (proj2 (nth_error_None p i) Hi).
Qed.

(** With four parameters or more [gauss] is the pointwise formula. *)
Lemma gauss_pointwise (p0 p1 p2 p3 : A) (rest : list A) (x : npval A) :
  maths_functions.gauss (p0 :: p1 :: p2 :: p3 :: rest) x =
  Ok (np_map
        (fun xi =>
           aadd (amul p0
                   (aexp (adiv (aneg (amul (asub xi p1) (asub xi p1)))
                            (amul (of_Z 2) (amul p2 p2)))))
             p3) x).
Proof. destruct x as [a|l]; cbn; [reflexivity|]. now rewrite !map_map. Qed.

Lemma lorentz_pointwise (p0 p1 p2 p3 : A) (rest : list A) (x : npval A) :
  maths_functions.lorentz (p0 :: p1 :: p2 :: p3 :: rest) x =
  Ok (np_map
        (fun xi =>
           aadd (adiv (amul p0 (amul p2 p2))
                   (aadd (amul (asub xi p1) (asub xi p1)) (amul p2 p2)))
             p3) x).
Proof. destruct x as [a|l]; cbn; [reflexivity|]. now rewrite !map_map. Qed.

Lemma sin_pointwise (p0 p1 p2 p3 : A) (rest : list A) (x : npval A) :
  maths_functions.sin (p0 :: p1 :: p2 :: p3 :: rest) x =
  Ok (np_map
        (fun xi => aadd (amul p0 (asine (aadd (amul p1 xi) p2))) p3) x).
Proof. destruct x as [a|l]; cbn; [reflexivity|]. now rewrite !map_map. Qed.

Lemma zip_with_maps (op : A -> A -> A) (f g : A -> A) (l : list A) :
  zip_with op (map f l) (map g l) = map (fun a => op (f a) (g a)) l.
Proof. induction l as [|a l IH]; simpl; [reflexivity | now rewrite IH]. Qed.

(** Two arrays computed entry by entry from one array broadcast entry by
    entry. *)
Lemma np_binop_maps (op : A -> A -> A) (f g : A -> A) (x : npval A) :
  np_binop op (np_map f x) (np_map g x) =
  Ok (np_map (fun a => op (f a) (g a)) x).
Proof.
  destruct x as [a|l]; simpl; [reflexivity|].
  now rewrite !length_map, Nat.eqb_refl, zip_with_maps.
Qed.

Lemma np_binop_scalar_l (op : A -> A -> A) (u : A) (x : npval A) :
  np_binop op (Scalar u) x = Ok (np_map (op u) x).
Proof. destruct x; reflexivity. Qed.

Lemma np_binop_scalar_r (op : A -> A -> A) (x : npval A) (v : A) :
  np_binop op x (Scalar v) = Ok (np_map (fun u => op u v) x).
Proof. destruct x; reflexivity. Qed.

Lemma np_map_map (f g : A -> A) (x : npval A) :
  np_map g (np_map f x) = np_map (fun a => g (f a)) x.
Proof. destruct x as [a|l]; simpl; [reflexivity | now rewrite map_map]. Qed.

Lemma phase_pointwise (p : list A) (i j : nat) (a b : A) (x : npval A) :
  nth_error p i = Some a -> nth_error p j = Some b ->
  maths_functions.phase p i j x =
  Ok (np_map (fun xi => aadd (amul a xi) b) x).
Proof.
  intros Hi Hj. unfold maths_functions.phase, maths_functions.item.
  rewrite Hi, Hj. cbn [bind]. unfold np_mul.
  rewrite np_binop_scalar_l. cbn [bind]. unfold maths_functions.np_add.
  now rewrite np_binop_scalar_r, np_map_map.
Qed.

Lemma cos_superpos_pointwise (p0 p1 p2 p3 p4 p5 : A) (rest : list A)
  (x : npval A) :
  maths_functions.cos_superpos (p0 :: p1 :: p2 :: p3 :: p4 :: p5 :: rest) x =
  Ok (np_map
        (fun xi =>
           aadd (amul p0 (aadd (acosine (aadd (amul p1 xi) p2))
                            (acosine (aadd (amul p3 xi) p4))))
             p5) x).
Proof.
  unfold maths_functions.cos_superpos.
  rewrite (phase_pointwise _ 1 2 p1 p2), (phase_pointwise _ 3 4 p3 p4)
    by reflexivity.
  cbn [maths_functions.item nth_error bind].
  unfold maths_functions.np_add, np_mul.
  rewrite !np_map_map, np_binop_maps. cbn [bind].
  rewrite np_binop_scalar_l. cbn [bind].
  now rewrite np_binop_scalar_r, !np_map_map.
Qed.

Lemma cos_prod_pointwise (p0 p1 p2 p3 p4 p5 : A) (rest : list A)
  (x : npval A) :
  maths_functions.cos_prod (p0 :: p1 :: p2 :: p3 :: p4 :: p5 :: rest) x =
  Ok (np_map
        (fun xi =>
           aadd (amul (amul p0 (acosine (aadd (amul p1 xi) p2)))
                   (acosine (aadd (amul p3 xi) p4)))
             p5) x).
Proof.
  unfold maths_functions.cos_prod.
  rewrite (phase_pointwise _ 1 2 p1 p2) by reflexivity.
  cbn [maths_functions.item nth_error bind]. unfold np_mul.
  rewrite np_binop_scalar_l. cbn [bind].
  rewrite (phase_pointwise _ 3 4 p3 p4) by reflexivity. cbn [bind].
  rewrite !np_map_map, np_binop_maps. cbn [bind].
  unfold maths_functions.np_add.
  now rewrite np_binop_scalar_r, !np_map_map.
Qed.

Lemma size_np_map (f : A -> A) (x : npval A) : size (np_map f x) = size x.
Proof. destruct x as [a|l]; simpl; [reflexivity | now rewrite length_map]. Qed.

End ModelFacts.

(** ** The model functions over the reals *)

Section ExactModels.
Local Open Scope R_scope.

(** Too few parameters, over the reals: [sin] with fewer than four and the
    cosine models with fewer than six fail with the [IndexError] of the
    first missing [p[i]], whatever [x] is; so do [gauss] and [lorentz] with
    fewer than four when the width [p[2]], if it is there, is not zero (no
    division by zero comes before [p[3]] is read). *)
Theorem model_functions_index_error (p : list R) (x : npval R) :
  ((length p < 4)%nat ->
   maths_functions.sin p x = Raise IndexError /\
   ((forall w, nth_error p 2 = Some w -> w <> 0) ->
    maths_functions.gauss p x = Raise IndexError /\
    maths_functions.lorentz p x = Raise IndexError)) /\
  ((length p < 6)%nat ->
   maths_functions.cos_superpos p x = Raise IndexError /\
   maths_functions.cos_prod p x = Raise IndexError).
Proof.
  split; intros Hp.
  - destruct p as [|p0 [|p1 [|p2 [|p3 rest]]]]; simpl in Hp; try lia;
      destruct x; repeat split; reflexivity.
  - destruct p as [|p0 [|p1 [|p2 [|p3 [|p4 [|p5 rest]]]]]];
      simpl in Hp; try lia;
      try (destruct x; repeat split; reflexivity).
    unfold maths_functions.cos_superpos, maths_functions.cos_prod.
    rewrite (phase_pointwise _ 1 2 p1 p2), (phase_pointwise _ 3 4 p3 p4)
      by reflexivity.
    cbn [maths_functions.item nth_error bind].
    unfold maths_functions.np_add, np_mul.
    rewrite np_binop_scalar_l. cbn [bind].
    rewrite !np_map_map, !np_binop_maps. cbn [bind].
    rewrite np_binop_scalar_l. cbn [bind]. split; reflexivity.
Qed.

(** Enough parameters, over the reals: [sin] with four and the cosine
    models with six parameters return a result of the size of [x], and so
    do [gauss] and [lorentz] with four parameters and a width [p[2]] that
    is not zero; parameters beyond the ones a function reads are ignored. *)
Theorem model_functions_size (p : list R) (x : npval R) :
  ((4 <= length p)%nat ->
   (exists s, maths_functions.sin p x = Ok s /\ size s = size x) /\
   (nth 2 p 0 <> 0 ->
    exists g l,
      maths_functions.gauss p x = Ok g /\ size g = size x /\
      maths_functions.lorentz p x = Ok l /\ size l = size x)) /\
  ((6 <= length p)%nat ->
   exists c d,
     maths_functions.cos_superpos p x = Ok c /\ size c = size x /\
     maths_functions.cos_prod p x = Ok d /\ size d = size x).
Proof.
  split; intros Hp.
  - destruct p as [|p0 [|p1 [|p2 [|p3 rest]]]]; simpl in Hp; try lia.
    rewrite gauss_pointwise, lorentz_pointwise, sin_pointwise.
    split; [eexists; split; [reflexivity | apply size_np_map]|].
    intros _. do 2 eexists. repeat split; apply size_np_map.
  - destruct p as [|p0 [|p1 [|p2 [|p3 [|p4 [|p5 rest]]]]]];
      simpl in Hp; try lia.
    rewrite cos_superpos_pointwise, cos_prod_pointwise.
    do 2 eexists. repeat split; apply size_np_map.
Qed.

(** The Gaussian [gauss(p, x)] with a width that is not zero: at the centre
    [p[1]] it is [p[0] + p[3]], one width away it is
    [p[0] * exp(-1/2) + p[3]], and it takes the same value at equal
    distances on both sides of the centre. *)
Theorem gauss_profile (p0 p1 p2 p3 t : R) (rest : list R) :
  p2 <> 0 ->
  let p := p0 :: p1 :: p2 :: p3 :: rest in
  maths_functions.gauss p (Scalar p1) = Ok (Scalar (p0 + p3)) /\
  maths_functions.gauss p (Scalar (p1 + p2)) =
  Ok (Scalar (p0 * exp (- (1 / 2)) + p3)) /\
  maths_functions.gauss p (Scalar (p1 + t)) =
  maths_functions.gauss p (Scalar (p1 - t)).
Proof.
  intros Hp2 p. unfold p. rewrite !gauss_pointwise. simpl.
  repeat split; do 2 f_equal.
  - replace (- ((p1 - p1) * (p1 - p1)) / (2 * (p2 * p2))) with 0
      by (field; exact Hp2).
    rewrite exp_0. ring.
  - do 3 f_equal. field. exact Hp2.
  - do 3 f_equal. field. exact Hp2.
Qed.

(** With a width that is not zero and a height that is not negative, every
    value of the Gaussian lies above the offset [p[3]] and not above the
    value [p[0] + p[3]] at the centre. *)
Theorem gauss_bounds (p0 p1 p2 p3 : R) (rest : list R) (x v : npval R) :
  p2 <> 0 -> 0 <= p0 ->
  maths_functions.gauss (p0 :: p1 :: p2 :: p3 :: rest) x = Ok v ->
  np_all (fun y => p3 <= y <= p0 + p3) v.
Proof.
  intros Hp2 Hp0. rewrite gauss_pointwise. intros [= <-].
  apply np_all_map. intros a. simpl.
  set (arg := - ((a - p1) * (a - p1)) / (2 * (p2 * p2))).
  assert (Harg : arg <= 0).
  { unfold arg, Rdiv.
    assert (Hsq : 0 < p2 * p2) by (apply (Rsqr_pos_lt p2 Hp2)).
    assert (H2 : 0 < 2 * (p2 * p2)) by Lra.lra.
    apply Rinv_0_lt_compat in H2.
    assert (Hd : 0 <= (a - p1) * (a - p1)) by apply Rle_0_sqr.
    assert (Hq : 0 <= (a - p1) * (a - p1) * / (2 * (p2 * p2)))
      by (apply Rmult_le_pos; Lra.lra).
    Lra.lra. }
  pose proof (exp_pos arg) as Hpos.
  assert (Hle : exp arg <= 1).
  { rewrite <- exp_0. destruct Harg as [Hlt|Heq].
    - left. now apply exp_increasing.
    - right. now rewrite Heq. }
  assert (Hlo : 0 <= p0 * exp arg) by (apply Rmult_le_pos; Lra.lra).
  assert (Hhi : p0 * exp arg <= p0 * 1) by (apply Rmult_le_compat_l; Lra.lra).
  Lra.lra.
Qed.

(** The Lorentzian [lorentz(p, x)] with a width that is not zero: at the
    centre [p[1]] it is [p[0] + p[3]], one width away on either side it is
    half the height above the offset, [p[0] / 2 + p[3]], and it takes the
    same value at equal distances on both sides of the centre. *)
Theorem lorentz_profile (p0 p1 p2 p3 t : R) (rest : list R) :
  p2 <> 0 ->
  let p := p0 :: p1 :: p2 :: p3 :: rest in
  maths_functions.lorentz p (Scalar p1) = Ok (Scalar (p0 + p3)) /\
  maths_functions.lorentz p (Scalar (p1 + p2)) = Ok (Scalar (p0 / 2 + p3)) /\
  maths_functions.lorentz p (Scalar (p1 - p2)) = Ok (Scalar (p0 / 2 + p3)) /\
  maths_functions.lorentz p (Scalar (p1 + t)) =
  maths_functions.lorentz p (Scalar (p1 - t)).
Proof.
  intros Hp2 p. unfold p. rewrite !lorentz_pointwise. simpl.
  assert (Hsq : 0 < p2 * p2) by (apply (Rsqr_pos_lt p2 Hp2)).
  repeat split; do 2 f_equal.
  - field. Lra.lra.
  - field. Lra.lra.
  - field. Lra.lra.
  - do 2 f_equal. ring.
Qed.

(** With a width that is not zero and a height that is not negative, every
    value of the Lorentzian lies between the offset [p[3]] and the value
    [p[0] + p[3]] at the centre. *)
Theorem lorentz_bounds (p0 p1 p2 p3 : R) (rest : list R) (x v : npval R) :
  p2 <> 0 -> 0 <= p0 ->
  maths_functions.lorentz (p0 :: p1 :: p2 :: p3 :: rest) x = Ok v ->
  np_all (fun y => p3 <= y <= p0 + p3) v.
Proof.
  intros Hp2 Hp0. rewrite lorentz_pointwise. intros [= <-].
  apply np_all_map. intros a. simpl.
  assert (Hsq : 0 < p2 * p2) by (apply (Rsqr_pos_lt p2 Hp2)).
  assert (Hd : 0 <= (a - p1) * (a - p1)) by apply Rle_0_sqr.
  set (den := (a - p1) * (a - p1) + p2 * p2) in *.
  assert (Hden : 0 < den) by (unfold den; Lra.lra).
  assert (Hratio : 0 <= p2 * p2 / den <= 1).
  { split.
    - apply Rmult_le_pos; [Lra.lra | left; now apply Rinv_0_lt_compat].
    - apply (Rmult_le_reg_r den); [exact Hden|].
      replace (p2 * p2 / den * den) with (p2 * p2) by (field; Lra.lra).
      unfold den. Lra.lra. }
  replace (p0 * (p2 * p2) / den) with (p0 * (p2 * p2 / den))
    by (field; Lra.lra).
  assert (Hlo : 0 <= p0 * (p2 * p2 / den)) by (apply Rmult_le_pos; Lra.lra).
  assert (Hhi : p0 * (p2 * p2 / den) <= p0 * 1)
    by (apply Rmult_le_compat_l; Lra.lra).
  Lra.lra.
Qed.

(** The sine wave [sin(p, x)] stays within the amplitude [|p[0]|] of the
    offset [p[3]], and for an angular frequency [p[1]] that is not zero it
    repeats after [2*PI / p[1]]. *)
Theorem sin_wave (p0 p1 p2 p3 : R) (rest : list R) :
  let p := p0 :: p1 :: p2 :: p3 :: rest in
  (forall x v,
      maths_functions.sin p x = Ok v ->
      np_all (fun y => Rabs (y - p3) <= Rabs p0) v) /\
  (p1 <> 0 ->
   forall a,
     maths_functions.sin p (Scalar (a + 2 * PI / p1)) =
     maths_functions.sin p (Scalar a)).
Proof.
  intros p. unfold p. split.
  - intros x v. rewrite sin_pointwise. intros [= <-].
    apply np_all_map. intros a. simpl.
    replace (p0 * Rtrigo_def.sin (p1 * a + p2) + p3 - p3)
      with (p0 * Rtrigo_def.sin (p1 * a + p2)) by ring.
    rewrite Rabs_mult. rewrite <- (Rmult_1_r (Rabs p0)) at 2.
    apply Rmult_le_compat_l; [apply Rabs_pos|].
    apply Rabs_le. pose proof (SIN_bound (p1 * a + p2)). Lra.lra.
  - intros Hp1 a. rewrite !sin_pointwise. simpl. do 4 f_equal.
    replace (p1 * (a + 2 * PI / p1) + p2)
      with (p1 * a + p2 + 2 * INR 1 * PI) by (simpl; field; exact Hp1).
    apply sin_period.
Qed.

(** A product of two cosines is a superposition of two cosines at the sum
    and the difference of the phases, with half the amplitude:
    [cos_prod] at [(p0, p1, p2, p3, p4, p5)] is [cos_superpos] at
    [(p0/2, p1+p3, p2+p4, p1-p3, p2-p4, p5)]. *)
Theorem cos_prod_is_cos_superpos (p0 p1 p2 p3 p4 p5 : R) (rest rest' : list R)
  (x : npval R) :
  maths_functions.cos_prod (p0 :: p1 :: p2 :: p3 :: p4 :: p5 :: rest) x =
  maths_functions.cos_superpos
    (p0 / 2 :: p1 + p3 :: p2 + p4 :: p1 - p3 :: p2 - p4 :: p5 :: rest') x.
Proof.
  rewrite cos_prod_pointwise, cos_superpos_pointwise. f_equal.
  assert (E : forall a,
             p0 * cos (p1 * a + p2) * cos (p3 * a + p4) + p5 =
             p0 / 2 * (cos ((p1 + p3) * a + (p2 + p4)) +
                       cos ((p1 - p3) * a + (p2 - p4))) + p5).
  { intros a.
    replace ((p1 + p3) * a + (p2 + p4))
      with ((p1 * a + p2) + (p3 * a + p4)) by ring.
    replace ((p1 - p3) * a + (p2 - p4))
      with ((p1 * a + p2) - (p3 * a + p4)) by ring.
    rewrite (cos_plus (p1 * a + p2) (p3 * a + p4)).
    rewrite (cos_minus (p1 * a + p2) (p3 * a + p4)). field. }
  destruct x as [a|l]; simpl; [now rewrite E|].
  f_equal. apply map_ext. exact E.
Qed.

(** The two cosine models stay within [2*|p[0]|] and [|p[0]|] of the offset
    [p[5]]. *)
Theorem cos_amplitudes (p0 p1 p2 p3 p4 p5 : R) (rest : list R)
  (x v : npval R) :
  let p := p0 :: p1 :: p2 :: p3 :: p4 :: p5 :: rest in
  (maths_functions.cos_superpos p x = Ok v ->
   np_all (fun y => Rabs (y - p5) <= 2 * Rabs p0) v) /\
  (maths_functions.cos_prod p x = Ok v ->
   np_all (fun y => Rabs (y - p5) <= Rabs p0) v).
Proof.
  intros p. unfold p. split.
  - rewrite cos_superpos_pointwise. intros [= <-].
    apply np_all_map. intros a. simpl.
    set (c1 := cos (p1 * a + p2)). set (c2 := cos (p3 * a + p4)).
    replace (p0 * (c1 + c2) + p5 - p5) with (p0 * (c1 + c2)) by ring.
    rewrite Rabs_mult, (Rmult_comm 2).
    apply Rmult_le_compat_l; [apply Rabs_pos|].
    apply Rabs_le.
    pose proof (COS_bound (p1 * a + p2)).
    pose proof (COS_bound (p3 * a + p4)). unfold c1, c2. Lra.lra.
  - rewrite cos_prod_pointwise. intros [= <-].
    apply np_all_map. intros a. simpl.
    set (c1 := cos (p1 * a + p2)). set (c2 := cos (p3 * a + p4)).
    replace (p0 * c1 * c2 + p5 - p5) with (p0 * (c1 * c2)) by ring.
    rewrite Rabs_mult. rewrite <- (Rmult_1_r (Rabs p0)) at 2.
    apply Rmult_le_compat_l; [apply Rabs_pos|].
    rewrite Rabs_mult.
    assert (H1 : Rabs c1 <= 1)
      by (apply Rabs_le; pose proof (COS_bound (p1 * a + p2)); unfold c1; Lra.lra).
    assert (H2 : Rabs c2 <= 1)
      by (apply Rabs_le; pose proof (COS_bound (p3 * a + p4)); unfold c2; Lra.lra).
    pose proof (Rabs_pos c1). pose proof (Rabs_pos c2).
    replace 1 with (1 * 1) by ring.
    apply Rmult_le_compat; Lra.lra.
Qed.

End ExactModels.

(** ** The archive search *)

Section StoreFacts.
Variable payload : Type.
Variable shape : payload -> list nat.

Lemma prefix_iff (a s : String.string) :
  String.prefix a s = true <-> exists post, s = String.append a post.
Proof.
  revert s. induction a as [|c a IH]; intros s; simpl.
  - split; [intros _; now exists s | intros _; destruct s; reflexivity].
  - destruct s as [|d s]; simpl.
    + split; [discriminate | intros [post Hp]; discriminate].
    + destruct (Ascii.ascii_dec c d) as [->|Hcd].
      * rewrite IH. split; intros [post Hp]; exists post;
          [now rewrite Hp | now injection Hp].
      * split; [discriminate|]. intros [post Hp]. injection Hp as Hc _.
        now elim Hcd.
Qed.

(** [string in i]: the name is the string with something before and
    something after it. *)
Lemma contains_iff (string i : String.string) :
  contains string i = true <->
  exists pre post, i = String.append pre (String.append string post).
Proof.
  induction i as [|c i IH]; cbn [contains].
  - rewrite orb_false_r, prefix_iff. split.
    + intros [post Hp]. now exists String.EmptyString, post.
    + intros (pre & post & Hp). destruct pre as [|d pre]; simpl in Hp.
      * now exists post.
      * discriminate.
  - rewrite orb_true_iff, prefix_iff, IH. split.
    + intros [[post Hp] | (pre & post & Hp)].
      * now exists String.EmptyString, post.
      * exists (String.String c pre), post. simpl. now rewrite Hp.
    + intros (pre & post & Hp). destruct pre as [|d pre]; simpl in Hp.
      * left. now exists post.
      * right. injection Hp as _ Hp. now exists pre, post.
Qed.

Lemma contains_empty (i : String.string) :
  contains String.EmptyString i = true.
Proof. destruct i; reflexivity. Qed.

Lemma getfile_absent (file : npz payload) (i : String.string) :
  ~ In i (map fst file) -> getfile payload file i = None.
Proof.
  induction file as [|[name a] file IH]; simpl; [reflexivity|].
  intros Hn. rewrite IH by tauto.
  destruct (String.eqb_spec name i) as [->|_]; [|reflexivity].
  exfalso. apply Hn. now left.
Qed.

(** In an archive whose names are all different, a listed name opens its
    own array. *)
Lemma getfile_listed (file : npz payload) (name : String.string)
  (a : payload) :
  NoDup (map fst file) -> In (name, a) file ->
  getfile payload file name = Some a.
Proof.
  induction file as [|[n b] file IH]; simpl; [tauto|].
  intros Hnd [Heq | Hin]; inversion Hnd as [|? ? Hnotin Hnd']; subst.
  - injection Heq as -> ->. rewrite getfile_absent by assumption.
    now rewrite String.eqb_refl.
  - now rewrite (IH Hnd' Hin).
Qed.

(** Whatever the archive, a name it lists is found. *)
Lemma listed_name_found (file : npz payload) (i : String.string) :
  In i (map fst file) -> exists a, getfile payload file i = Some a.
Proof.
  induction file as [|[name a] file IH]; simpl; [tauto|].
  intros [-> | Hin].
  - destruct (getfile payload file i) as [b|]; [now exists b|].
    rewrite String.eqb_refl. now exists a.
  - destruct (IH Hin) as [b ->]. now exists b.
Qed.

Lemma store_loop_filter (file sub : npz payload) (string : String.string) :
  (forall name a, In (name, a) sub ->
                  getfile payload file name = Some a) ->
  forall lst,
    store_loop payload file (map fst sub) string lst =
    lst ++ map snd (filter (fun e => contains string (fst e)) sub).
Proof.
  induction sub as [|[name a] sub IH]; intros Hget lst; simpl.
  - now rewrite app_nil_r.
  - assert (Hsub : forall n b, In (n, b) sub ->
                               getfile payload file n = Some b).
    { intros n b Hin. apply Hget. now right. }
    destruct (contains string name).
    + rewrite (Hget name a) by now left.
      rewrite (IH Hsub). simpl. now rewrite <- app_assoc.
    + apply (IH Hsub).
Qed.

Lemma shape_eqb_refl (s : list nat) : shape_eqb s s = true.
Proof.
  induction s as [|a s IH]; simpl; [reflexivity|].
  now rewrite Nat.eqb_refl, IH.
Qed.

Lemma asarray_first_one_shape (lst : list payload) :
  (forall a b, In a lst -> In b lst -> shape a = shape b) ->
  asarray_first payload shape lst = Ok lst.
Proof.
  destruct lst as [|a rest]; [reflexivity|]. intros Hs. simpl.
  replace (forallb (fun b => shape_eqb (shape b) (shape a)) rest)
    with true; [reflexivity|].
  symmetry. apply forallb_forall. intros b Hb.
  rewrite (Hs b a); [apply shape_eqb_refl | now right | now left].
Qed.

(** In an archive whose names are all different and whose arrays with a
    matching name have one shape, [search_store] returns the arrays whose
    name contains the string, in the order of the archive; an array is
    among them exactly when it is stored under a name that is the string
    with something before and after it. *)
Theorem search_store_matches (file : npz payload) (string : String.string) :
  NoDup (map fst file) ->
  (forall n a m b,
      In (n, a) file -> In (m, b) file ->
      contains string n = true -> contains string m = true ->
      shape a = shape b) ->
  search_store payload shape file string =
  Ok (map snd (filter (fun e => contains string (fst e)) file)) /\
  forall a,
    In a (map snd (filter (fun e => contains string (fst e)) file)) <->
    exists pre post,
      In (String.append pre (String.append string post), a) file.
Proof.
  intros Hnd Hshape. split.
  - unfold search_store.
    rewrite (store_loop_filter file file string)
      by (intros name a Hin; now apply getfile_listed).
    simpl. apply asarray_first_one_shape.
    intros a b Ha Hb.
    apply in_map_iff in Ha. destruct Ha as ([n a'] & <- & Ha).
    apply in_map_iff in Hb. destruct Hb as ([m b'] & <- & Hb).
    apply filter_In in Ha. destruct Ha as [Ha Hca].
    apply filter_In in Hb. destruct Hb as [Hb Hcb].
    exact (Hshape n a' m b' Ha Hb Hca Hcb).
  - intros a. rewrite in_map_iff. split.
    + intros ([n a'] & <- & Hin). apply filter_In in Hin.
      destruct Hin as [Hin Hc]. simpl in Hc.
      apply contains_iff in Hc. destruct Hc as (pre & post & ->).
      now exists pre, post.
    + intros (pre & post & Hin).
      exists (String.append pre (String.append string post), a).
      split; [reflexivity|]. apply filter_In. split; [exact Hin|].
      simpl. apply contains_iff. now exists pre, post.
Qed.

(** The empty string is part of every name: with it [search_store] returns
    every array of an archive whose names are all different and whose
    arrays have one shape. *)
Theorem search_store_empty_string (file : npz payload) :
  NoDup (map fst file) ->
  (forall n a m b, In (n, a) file -> In (m, b) file -> shape a = shape b) ->
  search_store payload shape file String.EmptyString = Ok (map snd file).
Proof.
  intros Hnd Hshape. unfold search_store.
  rewrite (store_loop_filter file file String.EmptyString)
    by (intros name a Hin; now apply getfile_listed).
  simpl.
  replace (filter (fun e => contains String.EmptyString (fst e)) file)
    with file.
  - apply asarray_first_one_shape. intros a b Ha Hb.
    apply in_map_iff in Ha. destruct Ha as ([n a'] & <- & Ha).
    apply in_map_iff in Hb. destruct Hb as ([m b'] & <- & Hb).
    exact (Hshape n a' m b' Ha Hb).
  - induction file as [|e file IH]; simpl; [reflexivity|].
    rewrite contains_empty. f_equal. apply IH.
    + now inversion Hnd.
    + intros n a m b Ha Hb. apply (Hshape n a m b); now right.
Qed.

Lemma store_loop_no_match (file : npz payload) (names : list String.string)
  (string : String.string) (lst : list payload) :
  (forall i, In i names -> contains string i = false) ->
  store_loop payload file names string lst = lst.
Proof.
  revert lst. induction names as [|i names IH]; intros lst Hno; simpl.
  - reflexivity.
  - rewrite (Hno i) by now left. apply IH. intros j Hj. apply Hno. now right.
Qed.

(** When no name contains the string, [search_store] returns the empty
    array, whatever the archive holds. *)
Theorem search_store_no_match (file : npz payload) (string : String.string) :
  (forall i, In i (map fst file) -> contains string i = false) ->
  search_store payload shape file string = Ok [].
Proof.
  intros Hno. unfold search_store.
  now rewrite (store_loop_no_match file (map fst file) string [] Hno).
Qed.

End StoreFacts.

(** ** More on rounding and on the array search *)

Section RoundingExtras.
Local Open Scope Q_scope.

(** *** Negative uncertainties *)

Lemma round_pair_negative (value u : Q) :
  u < 0 -> round_pair value u = Raise ValueError.
Proof.
  intros Hu. unfold round_pair.
  destruct (Qeq_bool u 0) eqn:E; [apply Qeq_bool_eq in E; lra|].
  unfold int_floor_log10.
  assert (Hc : (u ?= 0) = Lt) by (apply Qlt_alt; exact Hu).
  now rewrite Hc.
Qed.

Lemma round_loop_value_error (vs us : list Q) (i : nat) (u : Q) :
  nth_error us i = Some u -> u < 0 -> (i < length vs)%nat ->
  (forall j u', (j < i)%nat -> nth_error us j = Some u' -> 0 <= u') ->
  forall (n start : nat) (vo uo : list Q),
    (start <= i < start + n)%nat -> (start + n <= length vs)%nat ->
    round_loop (seq start n) vs us vo uo = Raise ValueError.
Proof.
  intros Hu Hneg Hi Hbefore.
  induction n as [|n IH]; intros start vo uo Hrange Hvs; [lia|].
  cbn [seq round_loop]. unfold getitem.
  destruct (Nat.eq_dec start i) as [->|Hne].
  - rewrite Hu.
    destruct (nth_error vs i) as [v|] eqn:Ev;
      [|apply nth_error_None in Ev; lia].
    cbn [bind]. now rewrite (round_pair_negative v u Hneg).
  - destruct (nth_error us start) as [u0|] eqn:Eu.
    2:{ exfalso. apply nth_error_None in Eu.
        assert (Hlt : (i < length us)%nat)
          by (apply nth_error_Some; rewrite Hu; discriminate).
        lia. }
    destruct (nth_error vs start) as [v0|] eqn:Ev;
      [|apply nth_error_None in Ev; lia].
    cbn [bind].
    destruct (round_pair_returns v0 u0) as [vu0 Hvu0].
    { apply (Hbefore start u0); [lia | exact Eu]. }
    rewrite Hvu0. cbn [bind]. apply IH; lia.
Qed.

(** A negative uncertainty makes [round_sig_fig_uncertainty] fail with
    [ValueError] (the logarithm is [nan] and [int] refuses it): for a scalar
    pair, and for arrays at the first negative uncertainty that is paired
    with a value, whatever follows it. *)
Theorem negative_uncertainty_raises :
  (forall value u : Q,
      u < 0 ->
      round_sig_fig_uncertainty (Scalars value u) = Raise ValueError) /\
  (forall (vs us : list Q) (i : nat) (u : Q),
      nth_error us i = Some u -> u < 0 -> (i < length vs)%nat ->
      (forall j u', (j < i)%nat -> nth_error us j = Some u' -> 0 <= u') ->
      round_sig_fig_uncertainty (Arrays vs us) = Raise ValueError).
Proof.
  split.
  - intros value u Hu. cbn [round_sig_fig_uncertainty].
    now rewrite (round_pair_negative value u Hu).
  - intros vs us i u Hu Hneg Hi Hbefore. cbn [round_sig_fig_uncertainty].
    rewrite (round_loop_value_error vs us i u Hu Hneg Hi Hbefore
               (length vs) 0%nat [] []); [reflexivity | lia | simpl; lia].
Qed.

(** *** [round_sig_fig] at the edges *)


(** A negative number of figures is refused with [ValueError] as soon as a
    number has to be formatted: for a number and for an array that is not
    empty. The empty array is returned as it is. *)
Theorem round_sig_fig_negative_n (n : Z) :
  (n < 0)%Z ->
  (forall x, round_sig_fig (PyNum x) n = Raise ValueError) /\
  (forall x l, round_sig_fig (PyArray (Nd1 (x :: l))) n = Raise ValueError) /\
  round_sig_fig (PyArray (Nd1 [])) n = Ok (PyArray (Nd1 [])).
Proof.
  intros Hn.
  assert (Hone : forall x, round_one x n = Raise ValueError).
  { intros x. unfold round_one, format_exponent.
    destruct (Z.ltb_spec n 0) as [_|Hge]; [reflexivity | lia]. }
  repeat split.
  - intros x. cbn [round_sig_fig]. now rewrite Hone.
  - intros x l. cbn [round_sig_fig round_sig_fig_array map_result].
    now rewrite Hone.
Qed.

(** *** Sign *)

Lemma Qfloor_half (z : Z) : Qfloor (inject_Z z + (1 # 2)) = z.
Proof.
  pose proof (Qfloor_le (inject_Z z + (1 # 2))) as Hlo.
  pose proof (Qlt_floor (inject_Z z + (1 # 2))) as Hhi.
  set (f := Qfloor (inject_Z z + (1 # 2))) in *.
  rewrite inject_Z_plus in Hhi. change (inject_Z 1) with 1 in Hhi.
  assert (H1 : inject_Z f < inject_Z (z + 1))
    by (rewrite inject_Z_plus; change (inject_Z 1) with 1; lra).
  assert (H2 : inject_Z z < inject_Z (f + 1))
    by (rewrite inject_Z_plus; change (inject_Z 1) with 1; lra).
  rewrite <- Zlt_Qlt in H1, H2. lia.
Qed.

(** Halfway between two integers [rint] picks the even one. *)
Lemma rint_half (z : Z) :
  rint (inject_Z z + (1 # 2)) = if Z.even z then z else (z + 1)%Z.
Proof.
  unfold rint. rewrite Qfloor_half.
  assert (E : inject_Z z + (1 # 2) - inject_Z z == 1 # 2) by ring.
  apply Qeq_alt in E. now rewrite E.
Qed.

(** Rounding to the nearest integer commutes with the change of sign. *)
Lemma rint_opp (x : Q) : rint (- x) = (- rint x)%Z.
Proof.
  pose proof (Qfloor_le x) as Hlo. pose proof (Qlt_floor x) as Hhi.
  rewrite inject_Z_plus in Hhi. change (inject_Z 1) with 1 in Hhi.
  destruct (Qcompare_spec (x - inject_Z (Qfloor x)) (1 # 2)) as [E|E|E].
  - assert (Ex : x == inject_Z (Qfloor x) + (1 # 2)) by lra.
    assert (Eo : - x == inject_Z (- Qfloor x - 1) + (1 # 2)).
    { unfold Z.sub. rewrite inject_Z_plus, inject_Z_opp.
      change (inject_Z (- (1))) with (- (1)). lra. }
    rewrite (rint_comp _ _ Ex), (rint_comp _ _ Eo), !rint_half.
    replace (- Qfloor x - 1)%Z with (Z.pred (- Qfloor x)) by lia.
    rewrite Z.even_pred, Z.odd_opp, <- Z.negb_even.
    destruct (Z.even (Qfloor x)); simpl; lia.
  - assert (Hr : rint x = Qfloor x).
    { apply rint_near. lra. }
    rewrite Hr. apply rint_near. rewrite inject_Z_opp. lra.
  - assert (Hr : rint x = (Qfloor x + 1)%Z).
    { apply rint_near. rewrite inject_Z_plus.
      change (inject_Z 1) with 1. lra. }
    rewrite Hr. apply rint_near.
    rewrite inject_Z_opp, inject_Z_plus. change (inject_Z 1) with 1. lra.
Qed.

Lemma np_round_opp (x : Q) (d : Z) : np_round (- x) d == - np_round x d.
Proof.
  rewrite !np_round_eq.
  assert (E : - x * pow10 d == - (x * pow10 d)) by ring.
  rewrite (rint_comp _ _ E), rint_opp, inject_Z_opp. ring.
Qed.

Lemma Qabs_opp_eq (x : Q) : Qabs (- x) = Qabs x.
Proof. destruct x as [n d]. unfold Qabs, Qopp. simpl. now rewrite Z.abs_opp. Qed.

Lemma Qeq_bool_opp (x : Q) : Qeq_bool (- x) 0 = Qeq_bool x 0.
Proof.
  destruct (Qeq_bool x 0) eqn:E.
  - apply Qeq_bool_eq in E. apply Qeq_eq_bool. lra.
  - destruct (Qeq_bool (- x) 0) eqn:E'; [|reflexivity].
    apply Qeq_bool_eq in E'. apply Qeq_bool_neq in E. exfalso. apply E. lra.
Qed.

Lemma sci_exponent_opp (x : Q) (n : Z) :
  sci_exponent (- x) n = sci_exponent x n.
Proof. unfold sci_exponent. now rewrite Qeq_bool_opp, Qabs_opp_eq. Qed.

(** [round_sig_fig] is odd: the opposite number is rounded to the opposite
    result (halfway cases go to the even digit on both sides), and it fails
    on both or on neither. *)
Theorem round_sig_fig_opposite (x : Q) (n : Z) :
  (round_sig_fig (PyNum x) n = Raise ValueError /\
   round_sig_fig (PyNum (- x)) n = Raise ValueError) \/
  (exists out out',
      round_sig_fig (PyNum x) n = Ok (PyNum out) /\
      round_sig_fig (PyNum (- x)) n = Ok (PyNum out') /\
      out' == - out).
Proof.
  cbn [round_sig_fig]. unfold round_one, format_exponent.
  destruct (Z.ltb_spec n 0) as [Hneg|Hge]; cbn [bind].
  - left. split; reflexivity.
  - right. do 2 eexists. split; [reflexivity|]. split; [reflexivity|].
    rewrite sci_exponent_opp. apply np_round_opp.
Qed.

(** *** [find_nearest_index] *)

(** Whatever the array, sorted or not, the index returned lies between 0
    and the length of the array, the length included. *)
Lemma searchsorted_loop_bounds (array : list Q) (key : Q) :
  forall (fuel min_idx max_idx : nat),
    (min_idx <= max_idx)%nat ->
    (min_idx <= searchsorted_loop fuel array key min_idx max_idx
     <= max_idx)%nat.
Proof.
  induction fuel as [|fuel IH]; intros min_idx max_idx Hle;
    cbn [searchsorted_loop]; [lia|].
  destruct (Nat.ltb_spec min_idx max_idx) as [Hlt|Hge]; [|lia].
  set (mid := (min_idx + (max_idx - min_idx) / 2)%nat).
  assert (Hmid : (min_idx <= mid < max_idx)%nat).
  { unfold mid.
    pose proof (Nat.div_lt (max_idx - min_idx) 2 ltac:(lia) ltac:(lia)).
    lia. }
  fold mid. destruct (Qlt_bool (nth mid array 0) key).
  - pose proof (IH (mid + 1)%nat max_idx ltac:(lia)). lia.
  - pose proof (IH min_idx mid ltac:(lia)). lia.
Qed.

(** The index [find_nearest_index] returns is never beyond the length of
    the array, so it is not always an index of the array; for the empty
    array it is [0]. *)
Theorem find_nearest_index_bounds (value : Q) (array : list Q) :
  (find_nearest_index value array <= length array)%nat /\
  find_nearest_index value [] = 0%nat.
Proof.
  split; [|reflexivity]. unfold find_nearest_index, searchsorted_left.
  pose proof (searchsorted_loop_bounds array value (length array) 0
                (length array) ltac:(lia)).
  lia.
Qed.

(** When the value occurs in an ascending array, the index returned is the
    nearest index: that of the first entry equal to the value. *)
Theorem find_nearest_index_of_member (value : Q) (array : list Q) (j : nat) :
  ascending array ->
  (j < length array)%nat -> nth j array 0 == value ->
  let index := find_nearest_index value array in
  nearest_index array value index /\
  nth index array 0 == value /\ (index <= j)%nat.
Proof.
  intros Hasc Hj Hval index.
  destruct (searchsorted_loop_spec array value Hasc (length array) 0
              (length array)) as (Hlen & Hbelow & Habove);
    [lia | lia | intros k Hk; lia | intros k Hk; lia |].
  fold (searchsorted_left array value) in Hlen, Hbelow, Habove.
  change (searchsorted_left array value) with index in Hlen, Hbelow, Habove.
  assert (Hij : (index <= j)%nat).
  { destruct (Nat.le_gt_cases index j) as [H|H]; [exact H|].
    specialize (Hbelow j H). lra. }
  assert (Hidx : nth index array 0 == value).
  { pose proof (Habove index ltac:(lia)) as Hge.
    pose proof (Hasc index j Hij Hj) as Hle. lra. }
  split; [|split; [exact Hidx | exact Hij]].
  split; [lia|]. intros k Hk.
  assert (Hzero : Qabs (nth index array 0 - value) == 0).
  { assert (E : nth index array 0 - value == 0) by lra.
    rewrite E. reflexivity. }
  split.
  - rewrite Hzero. apply Qabs_nonneg.
  - intros Hki. rewrite Hzero. specialize (Hbelow k Hki).
    assert (Hneg : nth k array 0 - value < 0) by lra.
    rewrite (Qabs_neg _ (Qlt_le_weak _ _ Hneg)). lra.
Qed.

End RoundingExtras.

(** ** Shapes that do not broadcast *)

Section ShapeFacts.
Context {A : Type} `{Arith A}.

Lemma np_binop_mismatch (op : A -> A -> A) (l1 l2 : list A) :
  length l1 <> length l2 -> length l1 <> 1%nat -> length l2 <> 1%nat ->
  np_binop op (Array l1) (Array l2) = Raise ValueError.
Proof.
  intros Hne H1 H2. cbn [np_binop].
  destruct (Nat.eqb_spec (length l1) (length l2)) as [E|_]; [contradiction|].
  destruct l1 as [|u [|u' l1]], l2 as [|v [|v' l2]];
    simpl in *; try reflexivity; contradiction.
Qed.

Lemma length_zip_with (op : A -> A -> A) (l1 l2 : list A) :
  length l1 = length l2 -> length (zip_with op l1 l2) = length l1.
Proof.
  revert l2. induction l1 as [|a l1 IH]; intros [|b l2] E;
    simpl in *; try reflexivity; try discriminate.
  f_equal. apply IH. now injection E.
Qed.

(** Arrays that do not broadcast are refused with [ValueError]:
    [residuals_data] and [chi2] fail when the observed and the expected
    values have different lengths, neither of them 1, whatever the
    uncertainty is, and when they have one length and the uncertainties
    another, neither of them 1. *)
Theorem chi2_shape_mismatch (observed expected : list A) :
  (forall s,
      length observed <> length expected ->
      length observed <> 1%nat -> length expected <> 1%nat ->
      residuals_data (Array observed) (Array expected) s =
      Raise ValueError /\
      chi2 (Array observed) (Array expected) s = Raise ValueError) /\
  (forall s,
      length observed = length expected ->
      length s <> length observed ->
      length observed <> 1%nat -> length s <> 1%nat ->
      residuals_data (Array observed) (Array expected) (Array s) =
      Raise ValueError /\
      chi2 (Array observed) (Array expected) (Array s) = Raise ValueError).
Proof.
  split.
  - intros s Hne H1 H2. unfold chi2, residuals_data, np_sub.
    rewrite (np_binop_mismatch asub observed expected Hne H1 H2).
    split; reflexivity.
  - intros s Heq Hne H1 H2. unfold chi2, residuals_data, np_sub.
    cbn [np_binop]. rewrite Heq, Nat.eqb_refl. cbn [bind]. unfold np_div.
    rewrite np_binop_mismatch;
      [split; reflexivity | | |];
      rewrite ?length_zip_with by exact Heq; congruence.
Qed.

End ShapeFacts.

(** ** Runs of the further properties *)

Section RationalRuns.
Local Open Scope Q_scope.

Lemma ascending_1_4_9 : ascending [1; 4; 9].
Proof.
  intros i j Hij Hj. simpl in Hj.
  destruct i as [|[|[|i]]], j as [|[|[|j]]]; try lia; simpl; discriminate.
Qed.

Lemma find_nearest_index_insertion_point_witness :
  (find_nearest_index 5%Q [1; 4; 9]%Q <= 3)%nat.
Proof.
  apply (proj1 (find_nearest_index_insertion_point 5 [1; 4; 9]
                  ascending_1_4_9)).
Defined.

Lemma find_nearest_index_of_member_witness :
  nth (find_nearest_index 4 [1; 4; 9]) [1; 4; 9] 0 == 4 /\
  (find_nearest_index 4%Q [1; 4; 9]%Q <= 1)%nat.
Proof.
  refine (proj2 (find_nearest_index_of_member 4 [1; 4; 9] 1
                   ascending_1_4_9 _ _)).
  - simpl. lia.
  - reflexivity.
Defined.

Lemma negative_uncertainty_raises_witness :
  round_sig_fig_uncertainty (Arrays [12.3456; 5] [0.07; -0.1]) =
  Raise ValueError.
Proof.
  refine (proj2 negative_uncertainty_raises [12.3456; 5] [0.07; -0.1]
            1%nat (-0.1) eq_refl eq_refl _ _).
  - simpl. lia.
  - intros j u' Hj. destruct j as [|j]; [|lia].
    simpl. intros [= <-]. discriminate.
Defined.


Lemma round_sig_fig_negative_n_witness :
  round_sig_fig (PyArray (Nd1 [1.5; 2.5])) (-1) = Raise ValueError.
Proof.
  apply (proj1 (proj2 (round_sig_fig_negative_n (-1) eq_refl))).
Defined.

End RationalRuns.

Section ExactExtraRuns.
Local Open Scope R_scope.

(** The line fitted to [x = (1, 2)], [y = (3, 1)] with slope [1]: the
    covariance is [1/5], the squared residuals sum to [5] and there is one
    degree of freedom, so the uncertainty of the slope is [1]. *)
Lemma fitting_uncertainties_witness :
  exists chi,
    fitting (converged_at (line_jac [1; 2])) inv_1x1
      [1] (Array [1; 2]) (Array [3; 1]) line (Scalar 1) =
    Ok ([1], chi, [1]).
Proof.
  destruct (fitting_uncertainties
              (converged_at (line_jac [1; 2])) inv_1x1
              [1] (Array [1; 2]) (Array [3; 1]) line (Scalar 1)
              (mk_result [1] (line_jac [1; 2]))
              _ _ eq_refl eq_refl eq_refl) as [chi Hfit].
  - unfold size, len. simpl. lia.
  - intros i Hi. simpl in *. Lra.lra.
  - exists chi. rewrite Hfit. simpl. do 3 f_equal.
    transitivity (sqrt 1); [f_equal; field | apply sqrt_1].
Defined.

Lemma chi2_properties_witness :
  exists c,
    chi2 (Array [3; 1]) (Array [1; 2]) (Array [5; 7]) = Ok c /\ 0 <= c.
Proof.
  eexists. split; [reflexivity|].
  refine (proj1 (chi2_properties (Array [3; 1]) (Array [1; 2])
                   (Array [5; 7]) _) _ eq_refl).
  repeat constructor; Lra.lra.
Defined.

Lemma chi2_scalar_sigma_witness :
  chi2 (Array [3; 1]) (Array [1; 2]) (Scalar 2) =
  bind (chi2 (Array [3; 1]) (Array [1; 2]) (Scalar 1))
    (fun c => Ok (c / (2 * 2))).
Proof.
  apply (chi2_scalar_sigma (Array [3; 1]) (Array [1; 2]) 2). Lra.lra.
Defined.

Lemma chi2_shape_mismatch_witness :
  chi2 (Array [1; 2; 3]) (Array [1; 2]) (Scalar 1) = Raise ValueError.
Proof.
  refine (proj2 (proj1 (chi2_shape_mismatch [1; 2; 3] [1; 2])
                   (Scalar 1) _ _ _));
    simpl; lia.
Defined.

Lemma model_functions_index_error_witness :
  maths_functions.gauss [1; 2; 3] (Scalar 0) = Raise IndexError /\
  maths_functions.lorentz [1; 2; 3] (Scalar 0) = Raise IndexError.
Proof.
  refine (proj2 (proj1 (model_functions_index_error [1; 2; 3] (Scalar 0))
                   _) _).
  - simpl. lia.
  - intros w [= <-]. Lra.lra.
Defined.

Lemma model_functions_size_witness :
  exists g l,
    maths_functions.gauss [1; 2; 3; 4] (Array [0; 1; 2]) = Ok g /\
    size g = size (Array [0; 1; 2]) /\
    maths_functions.lorentz [1; 2; 3; 4] (Array [0; 1; 2]) = Ok l /\
    size l = size (Array [0; 1; 2]).
Proof.
  refine (proj2 (proj1 (model_functions_size [1; 2; 3; 4]
                          (Array [0; 1; 2])) _) _).
  - simpl. lia.
  - simpl. Lra.lra.
Defined.

Lemma gauss_profile_witness :
  maths_functions.gauss [2; 1; 3; 5] (Scalar 1) = Ok (Scalar (2 + 5)).
Proof.
  refine (proj1 (gauss_profile 2 1 3 5 0 [] _)). Lra.lra.
Defined.

Lemma gauss_bounds_witness :
  np_all (fun y => 5 <= y <= 2 + 5)
    (np_map (fun a => 2 * exp (- ((a - 1) * (a - 1)) / (2 * (3 * 3))) + 5)
       (Array [0; 1; 4])).
Proof.
  refine (gauss_bounds 2 1 3 5 [] (Array [0; 1; 4]) _ _ _ _).
  - Lra.lra.
  - Lra.lra.
  - exact (gauss_pointwise 2 1 3 5 [] (Array [0; 1; 4])).
Defined.

Lemma lorentz_profile_witness :
  maths_functions.lorentz [2; 1; 3; 5] (Scalar (1 + 3)) =
  Ok (Scalar (2 / 2 + 5)).
Proof.
  refine (proj1 (proj2 (lorentz_profile 2 1 3 5 0 [] _))). Lra.lra.
Defined.

Lemma lorentz_bounds_witness :
  np_all (fun y => 5 <= y <= 2 + 5)
    (np_map (fun a => 2 * (3 * 3) / ((a - 1) * (a - 1) + 3 * 3) + 5)
       (Array [0; 1; 4])).
Proof.
  refine (lorentz_bounds 2 1 3 5 [] (Array [0; 1; 4]) _ _ _ _).
  - Lra.lra.
  - Lra.lra.
  - exact (lorentz_pointwise 2 1 3 5 [] (Array [0; 1; 4])).
Defined.

End ExactExtraRuns.

Section BinaryExtraRuns.
Local Open Scope float_scope.

(** The points [(1, 2)] and [(2, 4)] lie on the line of slope [2]: the
    residuals are both [0.0] and the reduced chi-squared is [nan]. *)
Lemma fitting_perfect_fit_witness :
  exists chi unc_fit,
    fitting (converged_at (line_jac [1; 2])) inv_1x1
      [2] (Array [1; 2]) (Array [2; 4]) line (Scalar 1) =
    Ok ([2], chi, unc_fit) /\
    PrimFloat.is_nan chi = true.
Proof.
  refine (fitting_perfect_fit
            (converged_at (line_jac [1; 2])) inv_1x1
            [2] (Array [1; 2]) (Array [2; 4]) line (Scalar 1)
            (mk_result [2] (line_jac [1; 2]))
            _ _ eq_refl eq_refl eq_refl _ _).
  - repeat constructor; exists false; reflexivity.
  - discriminate.
Defined.

End BinaryExtraRuns.

Section StoreRuns.
Local Open Scope nat_scope.
Local Open Scope string_scope.

(** An archive of three arrays of two numbers each. *)
Lemma search_store_matches_witness :
  search_store (list nat) (fun a => [length a])
    [("a_x", [1; 2]); ("b_y", [3; 4]); ("a_z", [5; 6])]
    "a_" =
  Ok [[1; 2]; [5; 6]].
Proof.
  refine (proj1 (search_store_matches (list nat) (fun a => [length a])
                   [("a_x", [1; 2]); ("b_y", [3; 4]);
                    ("a_z", [5; 6])] "a_" _ _)).
  - repeat constructor; simpl; intuition discriminate.
  - intros n a m b Ha Hb _ _. simpl in Ha, Hb.
    destruct Ha as [[= <- <-] | [[= <- <-] | [[= <- <-] | []]]];
      destruct Hb as [[= <- <-] | [[= <- <-] | [[= <- <-] | []]]];
      reflexivity.
Defined.

Lemma search_store_empty_string_witness :
  search_store (list nat) (fun a => [length a])
    [("a_x", [1; 2]); ("b_y", [3; 4]); ("a_z", [5; 6])]
    String.EmptyString =
  Ok [[1; 2]; [3; 4]; [5; 6]].
Proof.
  refine (search_store_empty_string (list nat) (fun a => [length a])
            [("a_x", [1; 2]); ("b_y", [3; 4]); ("a_z", [5; 6])] _ _).
  - repeat constructor; simpl; intuition discriminate.
  - intros n a m b Ha Hb. simpl in Ha, Hb.
    destruct Ha as [[= <- <-] | [[= <- <-] | [[= <- <-] | []]]];
      destruct Hb as [[= <- <-] | [[= <- <-] | [[= <- <-] | []]]];
      reflexivity.
Defined.

Lemma search_store_no_match_witness :
  search_store (list nat) (fun a => [length a])
    [("a_x", [1; 2]); ("b_y", [3; 4; 5])] "c_" = Ok [].
Proof.
  refine (search_store_no_match (list nat) (fun a => [length a])
            [("a_x", [1; 2]); ("b_y", [3; 4; 5])] "c_" _).
  intros i Hi. simpl in Hi.
  destruct Hi as [<- | [<- | []]]; reflexivity.
Defined.

End StoreRuns.
